(** * Voiceify: the article extraction and conversion pipeline

    A shallow embedding of [convex/articles.ts] (submission, retry, the
    processing orchestrator and the two extractors) and of
    [convex/audio.ts] (the speech synthesizer), with the properties the
    specification states about them.

    Strings are [String.string]: one [ascii] stands for one UTF-16 code
    unit below 256, and [String.length] is the [.length] of the source. *)

From Stdlib Require Import Ascii String NArith Lia Bool PrimFloat.
From Stdlib.Strings Require Import Byte.
From stdpp Require Import gmap strings list fin_maps.

Set Warnings "-register-all,-abstract-large-number".

Local Open Scope string_scope.
Local Open Scope list_scope.

(** ** Characters *)

Definition dquote : ascii := "034"%char.
Definition squote : ascii := "039"%char.

(** [\s] of the pattern language and the characters [trim] removes:
    TAB, LF, VT, FF, CR, SPACE and NBSP are the ones below 256. *)
Definition is_space (c : ascii) : bool :=
  let n := N_of_ascii c in
  ((9 <=? n) && (n <=? 13) || (n =? 32) || (n =? 160))%N.

(** [\w], used by the word boundary [\b]: letters, digits and underscore. *)
Definition is_word (c : ascii) : bool :=
  let n := N_of_ascii c in
  ((97 <=? n) && (n <=? 122) || (65 <=? n) && (n <=? 90)
   || (48 <=? n) && (n <=? 57) || (n =? 95))%N.

(** Canonicalisation under the [i] flag.  Every pattern character of this
    program is ASCII, and a code unit of 128 or more never canonicalises
    to one below 128, so folding a-z onto A-Z decides all comparisons
    the program makes. *)
Definition canon (icase : bool) (c : ascii) : ascii :=
  let n := N_of_ascii c in
  if icase && (97 <=? n)%N && (n <=? 122)%N then ascii_of_N (n - 32) else c.

(** ** Patterns *)

Inductive citem : Type :=
| One (c : ascii)      (* a single character *)
| Space                (* \s *)
| NonSpace.            (* \S *)

Inductive regex : Type :=
| Eps
| Chr (c : ascii)                          (* a literal character *)
| Class (negated : bool) (items : list citem)  (* [...] and [^...] *)
| Seq (r1 r2 : regex)
| Star (greedy : bool) (r : regex)         (* r* and r*? *)
| Group (n : nat) (r : regex)              (* capturing ( ) number n *)
| NonCap (r : regex)                       (* (?: ) *)
| NegLook (r : regex)                      (* (?! ) *)
| WordB.                                   (* \b *)

(** [r+] runs [r] once and then behaves as the greedy [r*]. *)
Definition Plus (r : regex) : regex := Seq r (Star true r).

Fixpoint lit (s : string) : regex :=
  match s with
  | EmptyString => Eps
  | String c s' => Seq (Chr c) (lit s')
  end.

Fixpoint seqs (rs : list regex) : regex :=
  match rs with
  | [] => Eps
  | r :: rs' => Seq r (seqs rs')
  end.

(** ** The backtracking matcher

    The matcher follows the continuation semantics of the language
    standard: a pattern is run on a state with the continuation that
    matches what follows it, and the first success in priority order is
    the result.  No pattern of the program has a capturing group under a
    repetition, so captures are never reset. *)

Record mstate : Type := MState {
  prev : option ascii;          (* the character before the position *)
  rest : string;                (* the input from the position on *)
  caps : list (nat * string)    (* captures, latest first *)
}.

Definition item_has (icase : bool) (c : ascii) (i : citem) : bool :=
  match i with
  | One a => Ascii.eqb (canon icase a) (canon icase c)
  | Space => is_space c
  | NonSpace => negb (is_space c)
  end.

Definition class_has (icase : bool) (negated : bool) (items : list citem)
    (c : ascii) : bool :=
  xorb negated (existsb (item_has icase c) items).

Definition opt_word (o : option ascii) : bool :=
  match o with Some c => is_word c | None => false end.

Definition peek (s : string) : option ascii :=
  match s with EmptyString => None | String c _ => Some c end.

Definition advance (st : mstate) (c : ascii) (s' : string) : mstate :=
  MState (Some c) s' (caps st).

Fixpoint str_take (n : nat) (s : string) : string :=
  match n, s with
  | S n', String c s' => String c (str_take n' s')
  | _, _ => EmptyString
  end.

(** The text consumed between two states of one run. *)
Definition consumed (st st' : mstate) : string :=
  str_take (String.length (rest st) - String.length (rest st')) (rest st).

Definition set_cap (n : nat) (v : string) (st : mstate) : mstate :=
  MState (prev st) (rest st) ((n, v) :: caps st).

Definition orelse {A} (a b : option A) : option A :=
  match a with Some x => Some x | None => b end.

(** The loop of a repetition over the matcher [body] of its operand: an
    iteration that consumes nothing is rejected, so the number of
    iterations is bounded by the length of the remaining input, which is
    what [fuel] starts from. *)
Fixpoint star_loop (body : mstate -> (mstate -> option mstate) -> option mstate)
    (greedy : bool) (k : mstate -> option mstate) (fuel : nat) (st : mstate)
    {struct fuel} : option mstate :=
  match fuel with
  | O => k st
  | S fuel' =>
      let again :=
        body st (fun st' =>
          if Nat.eqb (String.length (rest st')) (String.length (rest st))
          then None else star_loop body greedy k fuel' st') in
      if greedy then orelse again (k st) else orelse (k st) again
  end.

Fixpoint rmatch (icase : bool) (r : regex) (st : mstate)
    (k : mstate -> option mstate) {struct r} : option mstate :=
  match r with
  | Eps => k st
  | Chr p =>
      match rest st with
      | String c s' =>
          if Ascii.eqb (canon icase c) (canon icase p)
          then k (advance st c s') else None
      | EmptyString => None
      end
  | Class negated items =>
      match rest st with
      | String c s' =>
          if class_has icase negated items c
          then k (advance st c s') else None
      | EmptyString => None
      end
  | Seq r1 r2 => rmatch icase r1 st (fun st' => rmatch icase r2 st' k)
  | Star greedy r1 =>
      star_loop (rmatch icase r1) greedy k (S (String.length (rest st))) st
  | Group n r1 =>
      rmatch icase r1 st (fun st' => k (set_cap n (consumed st st') st'))
  | NonCap r1 => rmatch icase r1 st k
  | NegLook r1 =>
      match rmatch icase r1 st Some with
      | Some _ => None
      | None => k st
      end
  | WordB =>
      if xorb (opt_word (prev st)) (opt_word (peek (rest st)))
      then k st else None
  end.

(** One attempt at a fixed position. *)
Definition exec_at (icase : bool) (r : regex) (p : option ascii) (s : string)
    : option mstate :=
  rmatch icase r (MState p s []) Some.

(** [String.prototype.match] with a pattern without the [g] flag: the
    leftmost position at which the pattern matches; the result carries
    the captures. *)
Fixpoint search_from (icase : bool) (r : regex) (p : option ascii)
    (s : string) : option mstate :=
  match exec_at icase r p s with
  | Some st => Some st
  | None =>
      match s with
      | EmptyString => None
      | String c s' => search_from icase r (Some c) s'
      end
  end.

Definition str_match (icase : bool) (r : regex) (s : string) : option mstate :=
  search_from icase r None s.

Fixpoint cap_lookup (n : nat) (cs : list (nat * string)) : option string :=
  match cs with
  | [] => None
  | (i, v) :: cs' => if Nat.eqb i n then Some v else cap_lookup n cs'
  end.

(** [m[n]] of a match [m].  Every pattern of the program that is read
    this way has the group outside any optional part, so a match always
    sets it (see [patterns_set_group_1]) and the default is never used. *)
Definition group (n : nat) (m : mstate) : string :=
  default EmptyString (cap_lookup n (caps m)).

(** Whether every match of [r] sets group [n]: the group stands on the
    path of every match, outside repetitions and lookaheads. *)
Fixpoint sets_group (n : nat) (r : regex) : bool :=
  match r with
  | Group m r1 => Nat.eqb m n || sets_group n r1
  | Seq r1 r2 => sets_group n r1 || sets_group n r2
  | NonCap r1 => sets_group n r1
  | _ => false
  end.

(** The captures made up to [st] are still there at [st']. *)
Definition caps_kept (st st' : mstate) : Prop :=
  forall n, is_Some (cap_lookup n (caps st)) ->
            is_Some (cap_lookup n (caps st')).

(** [String.prototype.replace] with a [g] pattern and a replacement text
    without [$]: matches are found left to right from the end of the
    previous one; after an empty match the search moves on by one
    character.  [skip] counts the characters of the current match that
    are still to be dropped. *)
Fixpoint replace_from (icase : bool) (r : regex) (by_ : string)
    (p : option ascii) (s : string) (skip : nat) : string :=
  match skip, s with
  | S n, String c s' => replace_from icase r by_ (Some c) s' n
  | S _, EmptyString => EmptyString
  | O, _ =>
      match exec_at icase r p s with
      | Some st =>
          let n := String.length s - String.length (rest st) in
          by_ +:+
          match s with
          | EmptyString => EmptyString
          | String c s' =>
              match n with
              | O => String c (replace_from icase r by_ (Some c) s' 0)
              | S n' => replace_from icase r by_ (Some c) s' n'
              end
          end
      | None =>
          match s with
          | EmptyString => EmptyString
          | String c s' => String c (replace_from icase r by_ (Some c) s' 0)
          end
      end
  end.

Definition replace_all (icase : bool) (r : regex) (by_ : string) (s : string)
    : string :=
  replace_from icase r by_ None s 0.

(** [String.prototype.trim]. *)
Fixpoint trim_start (s : string) : string :=
  match s with
  | String c s' => if is_space c then trim_start s' else s
  | EmptyString => EmptyString
  end.

Fixpoint trim_end (s : string) : string :=
  match s with
  | String c s' =>
      match trim_end s' with
      | EmptyString => if is_space c then EmptyString else String c EmptyString
      | t => String c t
      end
  | EmptyString => EmptyString
  end.

Definition trim (s : string) : string := trim_end (trim_start s).

(** Truthiness of a string: [!s] holds of the empty string only. *)
Definition is_empty (s : string) : bool :=
  match s with EmptyString => true | _ => false end.

(** ** The heuristic extractor: [extractWithTraditionalMethods] *)

Record extraction : Type := Extraction { title : string; content : string }.

Definition not_lt : regex := Class true [One "<"%char].
Definition not_gt : regex := Class true [One ">"%char].
Definition quote : regex := Class false [One dquote; One squote].
Definition not_quote : regex := Class true [One dquote; One squote].
Definition any_char : regex := Class false [Space; NonSpace].

(** [/<script\b[^<]*G*<\/script>/gi] where [G] is the non-capturing
    group [(?: )] around [(?!<\/script>)<[^<]*], and the same for [style]. *)
Definition re_block (tag : string) : regex :=
  seqs [ lit ("<" +:+ tag); WordB; Star true not_lt;
         Star true (NonCap (seqs [ NegLook (lit ("</" +:+ tag +:+ ">"));
                                   Chr "<"; Star true not_lt ]));
         lit ("</" +:+ tag +:+ ">") ].

(** [/<title[^>]*>([^<]+)<\/title>/i] *)
Definition re_title : regex :=
  seqs [ lit "<title"; Star true not_gt; Chr ">";
         Group 1 (Plus not_lt); lit "</title>" ].

(** [/<meta[^>]*property=[\x22']og:title[\x22'][^>]*content=[\x22']([^\x22']+)[\x22']/i]
    (in these comments [\x22] stands for the double quote of the source) *)
Definition re_meta_title : regex :=
  seqs [ lit "<meta"; Star true not_gt; lit "property="; quote;
         lit "og:title"; quote; Star true not_gt; lit "content="; quote;
         Group 1 (Plus not_quote); quote ].

(** [/<body[^>]*>([\s\S]*?)<\/body>/i] *)
Definition re_body : regex :=
  seqs [ lit "<body"; Star true not_gt; Chr ">";
         Group 1 (Star false any_char); lit "</body>" ].

(** [/<[^>]+>/g] and [/\s+/g] *)
Definition re_tag : regex := seqs [ Chr "<"; Plus not_gt; Chr ">" ].
Definition re_spaces : regex := Plus (Class false [Space]).

Definition contentSelectors : list string :=
  [ "article";
    "[role=" +:+ String dquote ("main" +:+ String dquote "]");
    ".post-content";
    ".entry-content";
    ".article-content";
    ".content";
    "main" ].

(** [selector.replace('.', '')]: the first dot is removed. *)
Fixpoint remove_first_dot (s : string) : string :=
  match s with
  | String c s' => if Ascii.eqb c "." then s' else String c (remove_first_dot s')
  | EmptyString => EmptyString
  end.

(** The selector text is spliced into the pattern source, so [new RegExp]
    reads it as pattern syntax: a bracketed run of characters is a class,
    any other character of the selectors above is a literal.  [cls] holds
    the items of the class being read, latest first. *)
Fixpoint selector_atoms (s : string) (cls : option (list citem)) : regex :=
  match s, cls with
  | EmptyString, _ => Eps
  | String c s', None =>
      if Ascii.eqb c "[" then selector_atoms s' (Some [])
      else Seq (Chr c) (selector_atoms s' None)
  | String c s', Some items =>
      if Ascii.eqb c "]"
      then Seq (Class false (rev items)) (selector_atoms s' None)
      else selector_atoms s' (Some (One c :: items))
  end.

(** The pattern source
    [<[^>]*class=[\x22'][^\x22']*${selector.replace('.', '')}[^\x22']*[\x22'][^>]*>([\s\S]*?)</[^>]+>]
    with the flag [i]. *)
Definition re_selector (selector : string) : regex :=
  seqs [ Chr "<"; Star true not_gt; lit "class="; quote; Star true not_quote;
         selector_atoms (remove_first_dot selector) None;
         Star true not_quote; quote; Star true not_gt; Chr ">";
         Group 1 (Star false any_char);
         lit "</"; Plus not_gt; Chr ">" ].

(** The [for ... of contentSelectors] loop: the body of the first
    selector whose pattern matches, and the initial empty string when none does. *)
Fixpoint first_selector_body (cleanHtml : string) (selectors : list string)
    : string :=
  match selectors with
  | [] => EmptyString
  | selector :: more =>
      match str_match true (re_selector selector) cleanHtml with
      | Some m => group 1 m
      | None => first_selector_body cleanHtml more
      end
  end.

Definition strip_blocks (html : string) : string :=
  replace_all true (re_block "style") "" (replace_all true (re_block "script") "" html).

(** [titleMatch ? titleMatch[1].trim() : ''] *)
Definition title_tag_text (cleanHtml : string) : string :=
  match str_match true re_title cleanHtml with
  | Some titleMatch => trim (group 1 titleMatch)
  | None => ""
  end.

Definition heuristic_title (cleanHtml : string) : string :=
  let title := title_tag_text cleanHtml in
  if is_empty title then
    match str_match true re_meta_title cleanHtml with
    | Some metaTitleMatch => trim (group 1 metaTitleMatch)
    | None => "Untitled Article"
    end
  else title.

Definition heuristic_content (cleanHtml : string) : string :=
  let content := first_selector_body cleanHtml contentSelectors in
  let content :=
    if is_empty content then
      match str_match true re_body cleanHtml with
      | Some bodyMatch => group 1 bodyMatch
      | None => cleanHtml
      end
    else content in
  trim (replace_all false re_spaces " " (replace_all false re_tag " " content)).

Definition extractWithTraditionalMethods (html : string) : extraction :=
  let cleanHtml := strip_blocks html in
  {| title := heuristic_title cleanHtml; content := heuristic_content cleanHtml |}.


(** ** Exceptions and results *)

(** A thrown value: an [Error] object with its message, or anything else. *)
Inductive exn : Type :=
| JsError (message : string)
| Thrown.

Inductive result (A : Type) : Type :=
| Ok (a : A)
| Raise (e : exn).
Arguments Ok {A} a.
Arguments Raise {A} e.

#[global] Instance result_ret : MRet result := fun A a => Ok a.
#[global] Instance result_bind : MBind result := fun A B f m =>
  match m with Ok a => f a | Raise e => Raise e end.

(** ** Values of the language, as [JSON.parse] produces them *)

Inductive json : Type :=
| JNull
| JBool (b : bool)
| JNum (x : PrimFloat.float)
| JStr (s : string)
| JArr (xs : list json)
| JObj (fields : gmap string json).

(** Truthiness: [null], [false], zero, [NaN] and the empty string are
    falsy, every array and object is truthy. *)
Definition truthy (v : json) : bool :=
  match v with
  | JNull => false
  | JBool b => b
  | JNum x => negb (PrimFloat.eqb x PrimFloat.zero || PrimFloat.is_nan x)
  | JStr s => negb (is_empty s)
  | JArr _ | JObj _ => true
  end.

(** [v.title] and [v.content]: reading a property of [null] throws, an
    object yields its own field when it has one, and no other value has
    a property of either name.  [None] is [undefined]. *)
Definition null_read (k : string) : exn :=
  JsError ("Cannot read properties of null (reading '" +:+ k +:+ "')").

Definition get_prop (v : json) (k : string) : result (option json) :=
  match v with
  | JNull => Raise (null_read k)
  | JObj fields => Ok (fields !! k)
  | _ => Ok None
  end.

(** [x || d] for a possibly undefined [x]. *)
Definition or_default (x : option json) (d : json) : json :=
  match x with
  | Some v => if truthy v then v else d
  | None => d
  end.

(** ** The collaborators behind the interfaces

    What the services outside the program answer during one run.  A
    [Raise] is a rejected call. *)

Definition chunk : Type := list byte.            (* a [Uint8Array] *)

(** The provider's stream, as [reader.read()] delivers it. *)
Inductive stream : Type :=
| StreamDone                                     (* { done: true } *)
| StreamChunk (value : chunk) (more : stream)    (* { done: false, value } *)
| StreamBroken (e : exn).                        (* the read is rejected *)

Record response : Type := Response {
  ok : bool;
  statusText : string;
  text : result string                           (* [response.text()] *)
}.

Record world : Type := World {
  fetch : string -> result response;
  JSON_parse : string -> result json;
  (* [openai.chat.completions.create] on the user prompt, up to
     [response.choices[0].message.content]; [None] is a null content *)
  chat_completion : string -> result (option string);
  ELEVENLABS_API_KEY : option string;
  (* [elevenlabs.textToSpeech.convert] on the text *)
  textToSpeech_convert : string -> result stream;
  storage_store : chunk -> result N;
  (* what a call rejected by an argument validator throws *)
  validation_error : exn
}.

(** ** The model-based extractor: [extractWithAI] *)

(** What the coordinator hands to the orchestrator; the fields hold
    whatever the extractor produced. *)
Record extracted : Type := Extracted { x_title : json; x_content : json }.

Definition of_extraction (e : extraction) : extracted :=
  {| x_title := JStr (title e); x_content := JStr (content e) |}.

Definition newline : string := String "010"%char EmptyString.

(** The text sent to the model: scripts, styles and tags removed, white
    space collapsed, at most 8000 characters. *)
Definition ai_clean (html : string) : string :=
  str_take 8000
    (trim (replace_all false re_spaces " "
            (replace_all false re_tag " " (strip_blocks html)))).

Definition ai_prompt (html url : string) : string :=
  "Extract the title and main content from this webpage content from URL: "
  +:+ url +:+ newline +:+ newline +:+ "Content: " +:+ ai_clean html.

(** The text handed to [JSON.parse]: [content || '{}']. *)
Definition reply_source (message_content : option string) : string :=
  match message_content with
  | Some s => if is_empty s then "{}" else s
  | None => "{}"
  end.

Definition extractWithAI (w : world) (html url : string) : result extracted :=
  message_content ← chat_completion w (ai_prompt html url);
  parsed ← JSON_parse w (reply_source message_content);
  t ← get_prop parsed "title";
  c ← get_prop parsed "content";
  mret {| x_title := or_default t (JStr "Untitled Article");
          x_content := or_default c (JStr "No content extracted") |}.

(** ** The extraction coordinator: [extractArticleContent] *)

Definition extractArticleContent (w : world) (html url : string)
    : result extracted :=
  let traditionalExtraction := extractWithTraditionalMethods html in
  if is_empty (title traditionalExtraction)
     || (String.length (content traditionalExtraction) <? 200)%nat
  then extractWithAI w html url
  else mret (of_extraction traditionalExtraction).

(** ** The speech synthesizer: [generateAudio] *)

(** The [while (true)] loop over [reader.read()]: every chunk read is
    pushed onto [chunks]. *)
Fixpoint read_chunks (audioStream : stream) (chunks : list chunk)
    : result (list chunk) :=
  match audioStream with
  | StreamDone => Ok chunks
  | StreamChunk value more => read_chunks more (chunks ++ [value])
  | StreamBroken e => Raise e
  end.

(** [chunks.reduce((acc, chunk) => acc + chunk.length, 0)] *)
Definition totalLength (chunks : list chunk) : nat :=
  foldl (fun acc chunk => acc + length chunk) 0 chunks.

(** [result.set(chunk, offset)]: a chunk that does not fit is a
    [RangeError]; otherwise the bytes from [offset] on are overwritten. *)
Definition array_set (result0 : chunk) (chunk0 : chunk) (offset : nat)
    : option chunk :=
  if (offset + length chunk0 <=? length result0)%nat
  then Some (list_inserts offset chunk0 result0)
  else None.

Definition range_error : exn := JsError "offset is out of bounds".

(** The [for ... of chunks] loop with its running [offset]. *)
Fixpoint copy_chunks (chunks : list chunk) (result0 : chunk) (offset : nat)
    : result chunk :=
  match chunks with
  | [] => Ok result0
  | chunk0 :: more =>
      match array_set result0 chunk0 offset with
      | Some result1 => copy_chunks more result1 (offset + length chunk0)
      | None => Raise range_error
      end
  end.

Definition generateAudio (w : world) (text0 : string) : result chunk :=
  match ELEVENLABS_API_KEY w with
  | Some apiKey =>
      if is_empty apiKey
      then Raise (JsError "ElevenLabs API key not configured")
      else
        audioStream ← textToSpeech_convert w text0;
        chunks ← read_chunks audioStream [];
        (* new Uint8Array(totalLength) is zero-filled *)
        copy_chunks chunks (replicate (totalLength chunks) x00) 0
  | None => Raise (JsError "ElevenLabs API key not configured")
  end.

(** ** The article records *)

Inductive status_t : Type := processing | completed | error.

#[global] Instance status_eq_dec : EqDecision status_t.
Proof. solve_decision. Defined.

Module Article.
Record t : Type := mk {
  url : string;
  title : option string;
  content : option string;
  audioFileId : option N;
  status : status_t;
  errorMessage : option string
}.
End Article.

(** A run of [processArticle], at one of the points where it calls into
    the record store. *)
Inductive run : Type :=
| AtStart (articleId : N)                           (* scheduled *)
| AtUpdate (articleId : N) (extractedData : extracted)
| AtComplete (articleId : N) (audioFileId : N)
| AtCatch (articleId : N) (e : exn).

Definition run_article (r : run) : N :=
  match r with
  | AtStart i | AtUpdate i _ | AtComplete i _ | AtCatch i _ => i
  end.

(** The table of articles and the runs the scheduler holds. *)
Record system : Type := System {
  db : gmap N Article.t;
  scheduled : list run
}.

(** ** Mutations: transactions on the store

    A mutation that throws leaves no trace: the result carries a new
    state only on success. *)

Definition mutation (A : Type) : Type := system -> result (A * system).

#[global] Instance mutation_ret : MRet mutation := fun A a s => Ok (a, s).
#[global] Instance mutation_bind : MBind mutation := fun A B f m s =>
  match m s with
  | Ok (a, s') => f a s'
  | Raise e => Raise e
  end.

Definition throw {A} (e : exn) : mutation A := fun _ => Raise e.

Definition db_get (id : N) : mutation (option Article.t) :=
  fun s => Ok (db s !! id, s).

(** [query(...).filter(q => q.eq(q.field('url'), url)).first()]; the
    program only tests the result for presence. *)
Definition db_first_with_url (url : string) : mutation (option Article.t) :=
  fun s =>
    Ok (snd <$> head (map_to_list
                        (filter (fun kv => Article.url kv.2 = url) (db s))), s).

(** [db.insert]: the store picks an id no record has. *)
Definition db_insert (doc : Article.t) : mutation N :=
  fun s =>
    let id := fresh (dom (db s)) in
    Ok (id, System (<[id := doc]> (db s)) (scheduled s)).

(** [db.patch] rejects an id without a record. *)
Definition patch_missing : exn := JsError "Update on nonexistent document".

Definition db_patch (id : N) (f : Article.t -> Article.t) : mutation unit :=
  fun s =>
    match db s !! id with
    | Some doc => Ok (tt, System (<[id := f doc]> (db s)) (scheduled s))
    | None => Raise patch_missing
    end.

(** [scheduler.runAfter(0, internal.articles.processArticle, { articleId })] *)
Definition scheduler_runAfter (articleId : N) : mutation unit :=
  fun s => Ok (tt, System (db s) (scheduled s ++ [AtStart articleId])).

(** The document [{ url, status: 'processing' }]. *)
Definition new_article (url : string) : Article.t :=
  {| Article.url := url; Article.title := None;
     Article.content := None; Article.audioFileId := None;
     Article.status := processing; Article.errorMessage := None |}.

Definition create (url : string) : mutation N :=
  existing ← db_first_with_url url;
  match existing with
  | Some _ => throw (JsError "Article already exists")
  | None =>
      articleId ← db_insert (new_article url);
      scheduler_runAfter articleId;;
      mret articleId
  end.

Definition reset_article (a : Article.t) : Article.t :=
  {| Article.url := Article.url a; Article.title := None;
     Article.content := None; Article.audioFileId := None;
     Article.status := processing; Article.errorMessage := None |}.

Definition retry (articleId : N) : mutation N :=
  article ← db_get articleId;
  match article with
  | None => throw (JsError "Article not found")
  | Some _ =>
      db_patch articleId reset_article;;
      scheduler_runAfter articleId;;
      mret articleId
  end.

Definition getArticle (articleId : N) : mutation (option Article.t) :=
  db_get articleId.

(** What [updateArticle] makes of a record. *)
Definition with_text (title content : string) (a : Article.t) : Article.t :=
  {| Article.url := Article.url a; Article.title := Some title;
     Article.content := Some content;
     Article.audioFileId := Article.audioFileId a;
     Article.status := Article.status a;
     Article.errorMessage := Article.errorMessage a |}.

Definition updateArticle (articleId : N) (title content : string)
    : mutation unit :=
  db_patch articleId (with_text title content).

(** What [completeArticle] makes of a record. *)
Definition with_audio (audioFileId : N) (a : Article.t) : Article.t :=
  {| Article.url := Article.url a; Article.title := Article.title a;
     Article.content := Article.content a;
     Article.audioFileId := Some audioFileId;
     Article.status := completed;
     Article.errorMessage := Article.errorMessage a |}.

Definition completeArticle (articleId : N) (audioFileId : N) : mutation unit :=
  db_patch articleId (with_audio audioFileId).

(** What [markError] makes of a record. *)
Definition with_error (errorMessage : string) (a : Article.t) : Article.t :=
  {| Article.url := Article.url a; Article.title := Article.title a;
     Article.content := Article.content a;
     Article.audioFileId := Article.audioFileId a;
     Article.status := error;
     Article.errorMessage := Some errorMessage |}.

Definition markError (articleId : N) (errorMessage : string) : mutation unit :=
  db_patch articleId (with_error errorMessage).

(** ** Actions: the orchestrator

    An action is not a transaction: what its mutations wrote stays
    written when a later step throws. *)

Definition action (A : Type) : Type := system -> result A * system.

#[global] Instance action_ret : MRet action := fun A a s => (Ok a, s).
#[global] Instance action_bind : MBind action := fun A B f m s =>
  match m s with
  | (Ok a, s') => f a s'
  | (Raise e, s') => (Raise e, s')
  end.

Definition runMutation {A} (m : mutation A) : action A :=
  fun s =>
    match m s with
    | Ok (a, s') => (Ok a, s')
    | Raise e => (Raise e, s)
    end.

(** [ctx.runQuery]: a read-only transaction. *)
Definition runQuery {A} (q : mutation A) : action A := runMutation q.

(** A call that does not touch the store. *)
Definition await {A} (r : result A) : action A := fun s => (r, s).

Definition try_catch {A} (body : action A) (handler : exn -> action A)
    : action A :=
  fun s =>
    match body s with
    | (Ok a, s') => (Ok a, s')
    | (Raise e, s') => handler e s'
    end.

(** [v.string()] on an argument. *)
Definition validate_string (w : world) (v : json) : result string :=
  match v with
  | JStr s => Ok s
  | _ => Raise (validation_error w)
  end.

(** [error instanceof Error ? error.message : 'Unknown error'] *)
Definition error_text (e : exn) : string :=
  match e with
  | JsError message => message
  | Thrown => "Unknown error"
  end.

(** The calls of the orchestrator through [ctx.runMutation] and
    [ctx.runAction], with the argument validators of the callee. *)
Definition call_updateArticle (w : world) (articleId : N) (x : extracted)
    : action unit :=
  title ← await (validate_string w (x_title x));
  content ← await (validate_string w (x_content x));
  runMutation (updateArticle articleId title content).

Definition call_generateAudio (w : world) (v : json) : action chunk :=
  text0 ← await (validate_string w v);
  await (generateAudio w text0).

(** The [try] block of [processArticle]. *)
Definition processArticle_try (w : world) (articleId : N) : action unit :=
  article ← runQuery (getArticle articleId);
  match article with
  | None => await (Raise (JsError "Article not found"))
  | Some article =>
      response ← await (fetch w (Article.url article));
      if negb (ok response)
      then await (Raise (JsError ("Failed to fetch article: "
                                  +:+ statusText response)))
      else
        html ← await (text response);
        extractedData ←
          await (extractArticleContent w html (Article.url article));
        call_updateArticle w articleId extractedData;;
        audioBuffer ← call_generateAudio w (x_content extractedData);
        audioFileId ← await (storage_store w audioBuffer);
        runMutation (completeArticle articleId audioFileId)
  end.

Definition processArticle (w : world) (articleId : N) : action unit :=
  try_catch
    (processArticle_try w articleId)
    (fun e => runMutation (markError articleId (error_text e))).

(** ** Runs between their store calls

    The same orchestrator cut at its calls into the store: each piece
    starts with one transaction and continues with calls that do not
    touch the store, so other operations can only come in between
    pieces. *)

Inductive outcome : Type :=
| Continue (r : run)
| Finished
| Escaped (e : exn).      (* thrown out of the orchestrator *)

Definition stage_extract (w : world) (articleId : N) : action extracted :=
  article ← runQuery (getArticle articleId);
  match article with
  | None => await (Raise (JsError "Article not found"))
  | Some article =>
      response ← await (fetch w (Article.url article));
      if negb (ok response)
      then await (Raise (JsError ("Failed to fetch article: "
                                  +:+ statusText response)))
      else
        html ← await (text response);
        await (extractArticleContent w html (Article.url article))
  end.

Definition stage_synthesize (w : world) (articleId : N) (x : extracted)
    : action N :=
  call_updateArticle w articleId x;;
  audioBuffer ← call_generateAudio w (x_content x);
  await (storage_store w audioBuffer).

Definition run_step (w : world) (r : run) (s : system) : outcome * system :=
  match r with
  | AtStart articleId =>
      match stage_extract w articleId s with
      | (Ok x, s') => (Continue (AtUpdate articleId x), s')
      | (Raise e, s') => (Continue (AtCatch articleId e), s')
      end
  | AtUpdate articleId x =>
      match stage_synthesize w articleId x s with
      | (Ok audioFileId, s') => (Continue (AtComplete articleId audioFileId), s')
      | (Raise e, s') => (Continue (AtCatch articleId e), s')
      end
  | AtComplete articleId audioFileId =>
      match runMutation (completeArticle articleId audioFileId) s with
      | (Ok _, s') => (Finished, s')
      | (Raise e, s') => (Continue (AtCatch articleId e), s')
      end
  | AtCatch articleId e =>
      match runMutation (markError articleId (error_text e)) s with
      | (Ok _, s') => (Finished, s')
      | (Raise e', s') => (Escaped e', s')
      end
  end.

(** A run taken to its end without anything in between. *)
Fixpoint run_steps (w : world) (n : nat) (r : run) (s : system)
    : outcome * system :=
  match n with
  | O => (Continue r, s)
  | S n' =>
      match run_step w r s with
      | (Continue r', s') => run_steps w n' r' s'
      | done => done
      end
  end.

(** ** The system: client calls and runs, interleaved *)

(** The state a client call leaves: the mutation's on success, the old
    one when it throws. *)
Definition commit {A} (m : mutation A) (s : system) : system :=
  match m s with
  | Ok (_, s') => s'
  | Raise _ => s
  end.

Definition replace_run (before after : list run) (o : outcome) : list run :=
  match o with
  | Continue r' => before ++ r' :: after
  | Finished | Escaped _ => before ++ after
  end.

(** One step: a submission, a retry (when [may_retry] lets it through),
    or the next piece of some run, with whatever the outside world
    answers at that moment. *)
Inductive step (may_retry : system -> N -> Prop) : system -> system -> Prop :=
| step_create (url : string) (s : system) :
    step may_retry s (commit (create url) s)
| step_retry (articleId : N) (s : system) :
    may_retry s articleId ->
    step may_retry s (commit (retry articleId) s)
| step_run (w : world) (r : run) (before after : list run)
      (s s' : system) (o : outcome) :
    scheduled s = before ++ r :: after ->
    run_step w r s = (o, s') ->
    step may_retry s (System (db s') (replace_run before after o)).

(** The state after the next piece of the run [r] found between
    [before] and [after]. *)
Definition advance_run (w : world) (before : list run) (r : run)
    (after : list run) (s : system) : system :=
  let (o, s') := run_step w r s in
  System (db s') (replace_run before after o).

Definition initial : system := System ∅ [].

(** Retry at any time, as the program allows ... *)
Definition any_time : system -> N -> Prop := fun _ _ => True.

(** ... or only for an article none of whose runs is still under way. *)
Definition when_idle : system -> N -> Prop :=
  fun s articleId => Forall (fun r => run_article r ≠ articleId) (scheduled s).

Definition reachable (may_retry : system -> N -> Prop) (s : system) : Prop :=
  rtc (step may_retry) initial s.

(** ** The field-presence conditions of the data model *)

Definition processing_ok (a : Article.t) : Prop :=
  Article.status a = processing -> Article.audioFileId a = None.

Definition completed_has_audio (a : Article.t) : Prop :=
  Article.status a = completed -> is_Some (Article.audioFileId a).

Definition completed_has_text (a : Article.t) : Prop :=
  Article.status a = completed ->
  is_Some (Article.title a) /\ is_Some (Article.content a).

Definition error_ok (a : Article.t) : Prop :=
  Article.status a = error -> is_Some (Article.errorMessage a).

Definition status_ok (a : Article.t) : Prop :=
  Article.status a ∈ [processing; completed; error].

Definition record_ok (a : Article.t) : Prop :=
  status_ok a /\ processing_ok a /\ completed_has_audio a
  /\ completed_has_text a /\ error_ok a.

Definition store_ok (s : system) : Prop :=
  forall id a, db s !! id = Some a -> record_ok a.

(** The same without the title and content of a completed record. *)
Definition record_weak_ok (a : Article.t) : Prop :=
  status_ok a /\ processing_ok a /\ completed_has_audio a /\ error_ok a.

Definition store_weak_ok (s : system) : Prop :=
  forall id a, db s !! id = Some a -> record_weak_ok a.

(** A run about to write its completion expects title and content on
    the record. *)
Definition has_text (a : Article.t) : Prop :=
  is_Some (Article.title a) /\ is_Some (Article.content a).

Definition run_ready (s : system) (r : run) : Prop :=
  match r with
  | AtComplete articleId _ =>
      exists a, db s !! articleId = Some a /\ has_text a
  | _ => True
  end.

Definition consistent (s : system) : Prop :=
  store_ok s /\ Forall (run_ready s) (scheduled s).

(** What one piece of a run does to the store: nothing, or one of the
    three record writes on the article of the run. *)
Inductive run_effect (s : system) (r : run) : outcome -> system -> Prop :=
| effect_none (o : outcome) (s' : system) :
    db s' = db s ->
    (forall i f, o ≠ Continue (AtComplete i f)) ->
    run_effect s r o s'
| effect_text (a : Article.t) (t c : string) (o : outcome) (s' : system) :
    db s !! run_article r = Some a ->
    db s' = <[run_article r := with_text t c a]> (db s) ->
    (forall i f, o = Continue (AtComplete i f) -> i = run_article r) ->
    run_effect s r o s'
| effect_audio (a : Article.t) (i f : N) (s' : system) :
    r = AtComplete i f ->
    db s !! i = Some a ->
    db s' = <[i := with_audio f a]> (db s) ->
    run_effect s r Finished s'
| effect_error (a : Article.t) (message : string) (s' : system) :
    db s !! run_article r = Some a ->
    db s' = <[run_article r := with_error message a]> (db s) ->
    run_effect s r Finished s'.

(** The quality gate in the words of the specification. *)
Definition insufficient (e : extraction) : Prop :=
  title e = "" \/ String.length (content e) < 200.

(** ** Sample inputs *)

(** A world in which every service answers: the page is [html], the
    model answers with [reply], the synthesizer streams [chunks]. *)
Definition sample_world (page : response) (reply : json) (chunks : stream)
    : world :=
  {| fetch := fun _ => Ok page;
     JSON_parse := fun _ => Ok reply;
     chat_completion := fun _ => Ok None;
     ELEVENLABS_API_KEY := Some "key";
     textToSpeech_convert := fun _ => Ok chunks;
     storage_store := fun _ => Ok 7%N;
     validation_error := JsError "ArgumentValidationError" |}.

Fixpoint repeat_str (s : string) (n : nat) : string :=
  match n with
  | O => ""
  | S n' => s +:+ repeat_str s n'
  end.

(** A little over two hundred characters of plain text. *)
Definition long_text : string := repeat_str "much text " 20 +:+ "end".

Definition article_page : string :=
  "<title>Foo</title><article>" +:+ long_text +:+ "</article>".

Definition classed_article_page : string :=
  "<title>Foo</title><article class='article'>" +:+ long_text +:+ "</article>".

Definition blank_og_title_page : string :=
  "<meta property='og:title' content=' '>" +:+ long_text.

(** The stream that delivers the given chunks and ends. *)
Fixpoint stream_of (chunks : list chunk) : stream :=
  match chunks with
  | [] => StreamDone
  | value :: more => StreamChunk value (stream_of more)
  end.

Definition page_ok (html : string) : response :=
  {| ok := true; statusText := "OK"; text := Ok html |}.

Definition page_404 : response :=
  {| ok := false; statusText := "Not Found"; text := Ok "" |}.

(** The store after one submission. *)
Definition one_article : system :=
  commit (create "https://example.com/a") initial.

(** A world whose page fetch answers 404. *)
Definition world_404 : world :=
  sample_world page_404 (JObj ∅) StreamDone.

Definition quiet_world : world :=
  sample_world (page_ok article_page) (JObj ∅) (StreamChunk [x01] StreamDone).

(** A retry racing a run: the article is submitted, its run extracts,
    writes title and content and synthesizes; then the client retries;
    then the first run writes its completion. *)
Definition race_1 : system := commit (create "https://example.com/a") initial.
Definition race_2 : system := advance_run quiet_world [] (AtStart 0) [] race_1.
Definition race_extracted : extracted :=
  {| x_title := JStr "Foo"; x_content := JStr ("Foo " +:+ long_text) |}.
Definition race_3 : system :=
  advance_run quiet_world [] (AtUpdate 0 race_extracted) [] race_2.
Definition race_4 : system := commit (retry 0) race_3.
Definition race_5 : system :=
  advance_run quiet_world [] (AtComplete 0 7) [AtStart 0] race_4.

(** ** Notions for the further properties *)

(** Whether every match of [r] begins by consuming the character [a]. *)
Fixpoint starts_with (a : ascii) (r : regex) : bool :=
  match r with
  | Chr c => Ascii.eqb c a
  | Seq r1 _ => starts_with a r1
  | Group _ r1 | NonCap r1 => starts_with a r1
  | _ => false
  end.

Fixpoint has_char (a : ascii) (s : string) : bool :=
  match s with
  | EmptyString => false
  | String c s' => Ascii.eqb c a || has_char a s'
  end.

(** [t] at the start of [s], and somewhere in [s], letter case ignored. *)
Fixpoint prefix_ci (t s : string) : bool :=
  match t, s with
  | EmptyString, _ => true
  | String a t', String c s' =>
      Ascii.eqb (canon true c) (canon true a) && prefix_ci t' s'
  | String _ _, EmptyString => false
  end.

Fixpoint occurs_ci (t s : string) : bool :=
  prefix_ci t s
  || match s with
     | EmptyString => false
     | String _ s' => occurs_ci t s'
     end.

(** Every run of white space replaced by one blank; [in_run] tells that
    the blank of the current run is already out. *)
Fixpoint collapse (in_run : bool) (s : string) : string :=
  match s with
  | EmptyString => EmptyString
  | String c s' =>
      if is_space c
      then if in_run then collapse true s' else String " " (collapse true s')
      else String c (collapse false s')
  end.

(** Every white-space character of [s] is a blank that does not follow
    another one ([after_space] stands for the character before [s]). *)
Fixpoint single_blanks (after_space : bool) (s : string) : bool :=
  match s with
  | EmptyString => true
  | String c s' =>
      if is_space c
      then Ascii.eqb c " " && negb after_space && single_blanks true s'
      else single_blanks false s'
  end.

Fixpoint ends_with_space (s : string) : bool :=
  match s with
  | EmptyString => false
  | String c EmptyString => is_space c
  | String _ s' => ends_with_space s'
  end.

Definition begins_with_space (s : string) : bool :=
  match s with
  | EmptyString => false
  | String c _ => is_space c
  end.

(** The position of [st'] is at or after the position of [st]. *)
Definition later (st st' : mstate) : Prop :=
  exists pre, rest st = pre +:+ rest st'.

(** No white space at either end. *)
Definition trimmed (s : string) : bool :=
  negb (begins_with_space s) && negb (ends_with_space s).

(** Words separated by single blanks, nothing at the ends. *)
Definition tidy (s : string) : bool :=
  single_blanks true s && negb (ends_with_space s).

(** The text after the first [>] of [s]. *)
Fixpoint after_gt (s : string) : option string :=
  match s with
  | EmptyString => None
  | String c s' => if Ascii.eqb c ">" then Some s' else after_gt s'
  end.

(** Where a tag that starts at the head of [s] ends: after a [<], one
    character other than [>] and the first [>] from there on. *)
Definition tag_end (s : string) : option string :=
  match s with
  | String c (String c1 s'') =>
      if Ascii.eqb c "<" && negb (Ascii.eqb c1 ">") then after_gt s'' else None
  | _ => None
  end.

Definition head_not_gt (s : string) : bool :=
  match s with
  | String c _ => negb (Ascii.eqb c ">")
  | EmptyString => false
  end.

(** Whether a tag starts somewhere in [s]. *)
Fixpoint has_tag (s : string) : bool :=
  match s with
  | EmptyString => false
  | String c s' =>
      (Ascii.eqb c "<" && head_not_gt s' && has_char ">" s') || has_tag s'
  end.

(** ** The submission form: [handleSubmit] of [VoiceifyApp]

    The form holds the text of the URL field and the submitting flag;
    the toasts shown are collected in a list.  [client_error] is what the
    client library throws for an exception of the mutation. *)

Inductive toast : Type :=
| ToastSuccess (message : string)
| ToastError (message : string).

Record form : Type := Form {
  form_url : string;
  isSubmitting : bool;
  toasts : list toast
}.

(** [error instanceof Error ? error.message : 'Failed to add article'] *)
Definition submit_error_text (e : exn) : string :=
  match e with
  | JsError message => message
  | Thrown => "Failed to add article"
  end.

Definition handleSubmit (client_error : exn -> exn) (f : form) (s : system)
    : form * system :=
  if is_empty (trim (form_url f)) then (f, s)       (* if (!url.trim()) return *)
  else
    match create (trim (form_url f)) s with
    | Ok (_, s') =>
        (Form EmptyString false
           (toasts f ++ [ToastSuccess "Article added for processing!"]), s')
    | Raise e =>
        (Form (form_url f) false
           (toasts f ++ [ToastError (submit_error_text (client_error e))]), s)
    end.

Fixpoint all_space (s : string) : bool :=
  match s with
  | EmptyString => true
  | String c s' => is_space c && all_space s'
  end.

(** No two records hold the same URL. *)
Definition urls_unique (s : system) : Prop :=
  forall i j a b,
    db s !! i = Some a -> db s !! j = Some b ->
    Article.url a = Article.url b -> i = j.

(** Some record holds the URL. *)
Definition url_taken (url : string) (s : system) : Prop :=
  exists id a, db s !! id = Some a /\ Article.url a = url.

(** Every run the scheduler holds is for an article that has a record. *)
Definition runs_have_records (s : system) : Prop :=
  Forall (fun r => is_Some (db s !! run_article r)) (scheduled s).

(** Between [s] and [s'] nothing changed but the fields of record [i],
    its URL excepted: the scheduler's list, the other records and the
    set of ids are the same. *)
Definition same_but (i : N) (s s' : system) : Prop :=
  scheduled s' = scheduled s
  /\ (forall j, j ≠ i -> db s' !! j = db s !! j)
  /\ (forall j, is_Some (db s' !! j) <-> is_Some (db s !! j))
  /\ (forall a a', db s !! i = Some a -> db s' !! i = Some a' ->
                   Article.url a' = Article.url a).

(** A record a run is done with: completed with title, content and audio
    reference, or in state [error] with an error message. *)
Definition settled (a : Article.t) : Prop :=
  Article.status a = completed
  /\ is_Some (Article.title a) /\ is_Some (Article.content a)
  /\ is_Some (Article.audioFileId a)
  \/ Article.status a = error /\ is_Some (Article.errorMessage a).

(** The stream that delivers the given chunks and then fails. *)
Fixpoint broken_stream (chunks : list chunk) (e : exn) : stream :=
  match chunks with
  | [] => StreamBroken e
  | value :: more => StreamChunk value (broken_stream more e)
  end.

(** A short page, and a world whose model answers with a title that is
    no string. *)
Definition short_page : string := "<p>hi</p>".

Definition odd_reply_world : world :=
  sample_world (page_ok short_page) (JObj {[ "title" := JBool true ]})
    StreamDone.

(** A world without the synthesizer's key. *)
Definition keyless_world : world :=
  {| fetch := fetch quiet_world;
     JSON_parse := JSON_parse quiet_world;
     chat_completion := chat_completion quiet_world;
     ELEVENLABS_API_KEY := None;
     textToSpeech_convert := textToSpeech_convert quiet_world;
     storage_store := storage_store quiet_world;
     validation_error := validation_error quiet_world |}.

(** A world whose model answers with the text [reply], which
    [JSON.parse] turns into [parsed]. *)
Definition reply_world (reply : string) (parsed : result json) : world :=
  {| fetch := fun _ => Ok (page_ok short_page);
     JSON_parse := fun _ => parsed;
     chat_completion := fun _ => Ok (Some reply);
     ELEVENLABS_API_KEY := Some "key";
     textToSpeech_convert := fun _ => Ok StreamDone;
     storage_store := fun _ => Ok 7%N;
     validation_error := JsError "ArgumentValidationError" |}.

(** The model answers with the text [null], the JSON value null. *)
Definition null_reply_world : world := reply_world "null" (Ok JNull).

(** The model's answer breaks off inside the title, after
    [{ \x22title\x22: \x22Fo]; [JSON.parse] rejects the text with a
    [SyntaxError], whose wording is the engine's. *)
Definition truncated_reply : string :=
  "{" +:+ String dquote ("title" +:+ String dquote (": " +:+ String dquote "Fo")).

Definition json_syntax_error : exn :=
  JsError "Unexpected end of JSON input".

Definition truncated_reply_world : world :=
  reply_world truncated_reply (Raise json_syntax_error).

(** Two submissions, two pieces of the first article's run, and a retry
    of the second article. *)
Definition pair_1 : system := commit (create "https://example.com/a") initial.
Definition pair_2 : system := commit (create "https://example.com/b") pair_1.
Definition pair_3 : system :=
  advance_run quiet_world [] (AtStart 0) [AtStart 1] pair_2.
Definition pair_4 : system :=
  advance_run quiet_world [] (AtUpdate 0 race_extracted) [AtStart 1] pair_3.
Definition pair_5 : system := commit (retry 1) pair_4.

(** * Properties *)

(** ** The matcher *)

Section Matcher.
Variable icase : bool.

Local Abbreviation len st := (String.length (rest st)).

(** The continuation is only consulted at positions at or after the
    start, so two continuations that agree there give the same match. *)
Lemma star_loop_ext (body : mstate -> (mstate -> option mstate) -> option mstate)
    (greedy : bool) (k k' : mstate -> option mstate) (st : mstate) :
  (forall st0 k1 k2,
     (forall st', len st' <= len st0 -> k1 st' = k2 st') ->
     body st0 k1 = body st0 k2) ->
  (forall st', len st' <= len st -> k st' = k' st') ->
  forall fuel st0, len st0 <= len st ->
    star_loop body greedy k fuel st0 = star_loop body greedy k' fuel st0.
Proof.
  intros Hbody Hk. induction fuel as [|fuel IH]; intros st0 Hle; cbn.
  - now apply Hk.
  - rewrite (Hk st0 Hle).
    rewrite (Hbody st0 _
               (fun st' => if Nat.eqb (len st') (len st0) then None
                           else star_loop body greedy k' fuel st')).
    + reflexivity.
    + intros st' Hle'. destruct (Nat.eqb _ _); [reflexivity |].
      apply IH. lia.
Qed.

Lemma rmatch_ext (r : regex) (st : mstate) (k k' : mstate -> option mstate) :
  (forall st', len st' <= len st -> k st' = k' st') ->
  rmatch icase r st k = rmatch icase r st k'.
Proof.
  revert st k k'.
  induction r as [| p | negated items | r1 IH1 r2 IH2 | greedy r1 IH1
                  | n r1 IH1 | r1 IH1 | r1 IH1 |]; intros st k k' Hk;
    cbn [rmatch].
  - now apply Hk.
  - destruct (rest st) as [|c s'] eqn:Hrest; [reflexivity |].
    destruct (Ascii.eqb _ _); [| reflexivity].
    apply Hk. cbn. lia.
  - destruct (rest st) as [|c s'] eqn:Hrest; [reflexivity |].
    destruct (class_has _ _ _ _); [| reflexivity].
    apply Hk. cbn. lia.
  - apply IH1. intros st' Hle. apply IH2. intros st2 Hle2. apply Hk. lia.
  - apply (star_loop_ext _ greedy k k' st); [| exact Hk | lia].
    intros st0 k1 k2 H12. now apply IH1.
  - apply IH1. intros st' Hle. now apply Hk.
  - now apply IH1.
  - now rewrite (Hk st (Nat.le_refl _)).
  - now rewrite (Hk st (Nat.le_refl _)).
Qed.

(** The bound on the iterations is never met: any two amounts of fuel
    above the length of the remaining input give the same loop. *)
Lemma star_loop_fuel (r : regex) (greedy : bool) (k : mstate -> option mstate) :
  forall n m st, len st < n -> len st < m ->
    star_loop (rmatch icase r) greedy k n st
    = star_loop (rmatch icase r) greedy k m st.
Proof.
  induction n as [|n IH]; intros m st Hn Hm; [lia |].
  destruct m as [|m]; [lia |]. cbn.
  rewrite (rmatch_ext r st _
             (fun st' => if Nat.eqb (len st') (len st) then None
                         else star_loop (rmatch icase r) greedy k m st')).
  - reflexivity.
  - intros st' Hle. destruct (Nat.eqb_spec (len st') (len st)); [reflexivity |].
    apply IH; lia.
Qed.

(** The repetition as the language standard defines it: run the operand,
    refuse an empty iteration, and repeat; the greedy form prefers one
    more iteration, the lazy form prefers to stop. *)
Lemma rmatch_Star (greedy : bool) (r : regex) (st : mstate)
    (k : mstate -> option mstate) :
  rmatch icase (Star greedy r) st k =
  let again :=
    rmatch icase r st (fun st' =>
      if Nat.eqb (len st') (len st) then None
      else rmatch icase (Star greedy r) st' k) in
  if greedy then orelse again (k st) else orelse (k st) again.
Proof.
  cbn [rmatch star_loop].
  rewrite (rmatch_ext r st _
             (fun st' => if Nat.eqb (len st') (len st) then None
                         else star_loop (rmatch icase r) greedy k
                                (S (len st')) st')).
  - reflexivity.
  - intros st' Hle. destruct (Nat.eqb_spec (len st') (len st)); [reflexivity |].
    apply star_loop_fuel; lia.
Qed.

Lemma caps_kept_refl (st : mstate) : caps_kept st st.
Proof. now intros n. Qed.

Lemma caps_kept_trans (st1 st2 st3 : mstate) :
  caps_kept st1 st2 -> caps_kept st2 st3 -> caps_kept st1 st3.
Proof. intros H12 H23 n Hn. now apply H23, H12. Qed.

Lemma caps_kept_set_cap (n : nat) (v : string) (st st' : mstate) :
  caps_kept st st' -> caps_kept st (set_cap n v st').
Proof.
  intros Hkept m Hm. cbn. destruct (Nat.eqb n m); [eauto | now apply Hkept].
Qed.

Lemma orelse_Some {A} (a b : option A) (x : A) :
  orelse a b = Some x -> a = Some x \/ b = Some x.
Proof. destruct a; cbn; intros H; [left | right]; exact H. Qed.

(** A match is what the continuation returned, at a state that still has
    the captures of the start. *)
Lemma star_loop_from_k (body : mstate -> (mstate -> option mstate) -> option mstate)
    (greedy : bool) (k : mstate -> option mstate) :
  (forall st0 k0 res,
     body st0 k0 = Some res ->
     exists st', k0 st' = Some res /\ caps_kept st0 st') ->
  forall fuel st res,
    star_loop body greedy k fuel st = Some res ->
    exists st', k st' = Some res /\ caps_kept st st'.
Proof.
  intros Hbody. induction fuel as [|fuel IH]; intros st res Hloop; cbn in Hloop.
  - exists st. split; [exact Hloop | apply caps_kept_refl].
  - assert (forall again,
              again = body st (fun st' =>
                        if Nat.eqb (len st') (len st) then None
                        else star_loop body greedy k fuel st') ->
              again = Some res ->
              exists st', k st' = Some res /\ caps_kept st st') as Hagain.
    { intros again -> Hres. apply Hbody in Hres as (st1 & Hk1 & Hkept1).
      destruct (Nat.eqb _ _); [discriminate |].
      apply IH in Hk1 as (st' & Hk' & Hkept'). exists st'. split; [exact Hk' |].
      now apply (caps_kept_trans st st1 st'). }
    assert (k st = Some res -> exists st', k st' = Some res /\ caps_kept st st')
      as Hstop.
    { intros Hres. exists st. split; [exact Hres | apply caps_kept_refl]. }
    destruct greedy; apply orelse_Some in Hloop as [H | H]; eauto.
Qed.

Lemma rmatch_from_k (r : regex) (st : mstate) (k : mstate -> option mstate)
    (res : mstate) :
  rmatch icase r st k = Some res ->
  exists st', k st' = Some res /\ caps_kept st st'.
Proof.
  revert st k res.
  induction r as [| p | negated items | r1 IH1 r2 IH2 | greedy r1 IH1
                  | n r1 IH1 | r1 IH1 | r1 IH1 |]; intros st k res Hres;
    cbn [rmatch] in Hres.
  - exists st. split; [exact Hres | apply caps_kept_refl].
  - destruct (rest st) as [|c s']; [discriminate |].
    destruct (Ascii.eqb _ _); [| discriminate].
    eexists. split; [exact Hres | now intros n].
  - destruct (rest st) as [|c s']; [discriminate |].
    destruct (class_has _ _ _ _); [| discriminate].
    eexists. split; [exact Hres | now intros n].
  - apply IH1 in Hres as (st1 & Hres & Hkept1).
    apply IH2 in Hres as (st2 & Hres & Hkept2).
    exists st2. split; [exact Hres | now apply (caps_kept_trans st st1 st2)].
  - apply (star_loop_from_k _ greedy k) in Hres; [exact Hres |].
    intros st0 k0 res0. apply IH1.
  - apply IH1 in Hres as (st1 & Hres & Hkept1).
    eexists. split; [exact Hres | now apply caps_kept_set_cap].
  - now apply IH1.
  - destruct (rmatch icase r1 st Some); [discriminate |].
    exists st. split; [exact Hres | apply caps_kept_refl].
  - destruct (xorb _ _); [| discriminate].
    exists st. split; [exact Hres | apply caps_kept_refl].
Qed.

(** A group on the path of every match is set in every match. *)
Lemma rmatch_sets_group (n : nat) (r : regex) :
  sets_group n r = true ->
  forall st k res,
    rmatch icase r st k = Some res ->
    exists st', k st' = Some res /\ is_Some (cap_lookup n (caps st')).
Proof.
  induction r as [| p | negated items | r1 IH1 r2 IH2 | greedy r1 IH1
                  | m r1 IH1 | r1 IH1 | r1 IH1 |]; cbn [sets_group];
    try discriminate; intros Hsets st k res Hres; cbn [rmatch] in Hres.
  - apply orb_true_iff in Hsets as [Hsets | Hsets].
    + apply (IH1 Hsets) in Hres as (st1 & Hres & Hset1).
      apply rmatch_from_k in Hres as (st2 & Hres & Hkept).
      exists st2. split; [exact Hres | now apply Hkept].
    + apply rmatch_from_k in Hres as (st1 & Hres & _).
      now apply (IH2 Hsets) in Hres.
  - apply orb_true_iff in Hsets as [Hsets | Hsets].
    + apply rmatch_from_k in Hres as (st1 & Hres & _).
      eexists. split; [exact Hres |]. cbn. rewrite Hsets. eauto.
    + apply (IH1 Hsets) in Hres as (st1 & Hres & Hset1).
      eexists. split; [exact Hres |]. cbn.
      destruct (Nat.eqb m n); [eauto | exact Hset1].
  - exact (IH1 Hsets st k res Hres).
Qed.

Lemma str_match_sets_group (n : nat) (r : regex) (s : string) (m : mstate) :
  sets_group n r = true ->
  str_match icase r s = Some m ->
  cap_lookup n (caps m) = Some (group n m).
Proof.
  intros Hsets. unfold str_match. generalize (@None ascii) as p.
  induction s as [|c s IH]; intros p Hm; cbn [search_from] in Hm;
    unfold exec_at in Hm.
  - destruct (rmatch icase r (MState p "" []) Some) as [res|] eqn:Hres;
      [| discriminate].
    injection Hm as ->.
    apply (rmatch_sets_group n r Hsets) in Hres as (st' & [= ->] & [v Hv]).
    unfold group. now rewrite Hv.
  - destruct (rmatch icase r (MState p (String c s) []) Some) as [res|] eqn:Hres.
    + injection Hm as ->.
      apply (rmatch_sets_group n r Hsets) in Hres as (st' & [= ->] & [v Hv]).
      unfold group. now rewrite Hv.
    + now apply (IH (Some c)).
Qed.

End Matcher.

(** Every pattern whose first group the program reads sets that group in
    every match, so [m[1]] is never undefined. *)
Lemma patterns_set_group_1 (selector : string) :
  sets_group 1 re_title = true
  /\ sets_group 1 re_meta_title = true
  /\ sets_group 1 re_body = true
  /\ sets_group 1 (re_selector selector) = true.
Proof.
  repeat split; try reflexivity.
  unfold re_selector. cbn [seqs sets_group Nat.eqb orb].
  now rewrite !orb_true_r.
Qed.

(** ** The extraction coordinator *)

(** C2: the coordinator returns the heuristic result when it has a
    non-empty title and at least 200 characters of content, and the
    result of the model-based extractor otherwise; the gate is exactly
    "title empty or content shorter than 200". *)
Theorem extractArticleContent_gate (w : world) (html url : string) :
  let heuristic := extractWithTraditionalMethods html in
  (insufficient heuristic ->
   extractArticleContent w html url = extractWithAI w html url)
  /\ (~ insufficient heuristic ->
      extractArticleContent w html url = Ok (of_extraction heuristic)).
Proof.
  unfold extractArticleContent, insufficient.
  set (h := extractWithTraditionalMethods html). cbn zeta.
  destruct (title h) as [|c t] eqn:Ht; cbn [is_empty orb].
  - split; [reflexivity | intros H; exfalso; apply H; now left].
  - destruct (Nat.ltb_spec (String.length (content h)) 200) as [Hlt | Hge].
    + split; [reflexivity | intros H; exfalso; apply H; now right].
    + split; [| reflexivity].
      intros [Hempty | Hshort]; [discriminate | lia].
Qed.

Lemma extractArticleContent_gate_witness :
  extractArticleContent quiet_world "<title>Short</title><p>hi</p>" "u"
  = extractWithAI quiet_world "<title>Short</title><p>hi</p>" "u"
  /\ extractArticleContent quiet_world article_page "u"
     = Ok (of_extraction (extractWithTraditionalMethods article_page)).
Proof.
  split.
  - apply (proj1 (extractArticleContent_gate quiet_world
                    "<title>Short</title><p>hi</p>" "u")).
    right. vm_compute. lia.
  - apply (proj2 (extractArticleContent_gate quiet_world article_page "u")).
    unfold insufficient. vm_compute. intros [H | H]; [discriminate | lia].
Defined.

(** ** The model-based extractor *)

Lemma extractWithAI_unfold (w : world) (html url : string) :
  extractWithAI w html url =
  (message_content ← chat_completion w (ai_prompt html url);
   parsed ← JSON_parse w (reply_source message_content);
   t ← get_prop parsed "title";
   c ← get_prop parsed "content";
   mret {| x_title := or_default t (JStr "Untitled Article");
           x_content := or_default c (JStr "No content extracted") |}).
Proof. reflexivity. Qed.

Lemma get_prop_not_null (parsed : json) (k : string) :
  parsed ≠ JNull -> exists x, get_prop parsed k = Ok x.
Proof. intros Hnull. destruct parsed; try congruence; cbn; eauto. Qed.

(** C9: for an answer of the model that [JSON.parse] turns into a value
    other than [null], the extractor returns a result, and a field the
    value does not have is replaced: the title by "Untitled Article", the
    content by the placeholder "No content extracted"; a field it has is
    kept when truthy and replaced in the same way when falsy.  On every
    other answer the extractor fails: with the exception of [JSON.parse]
    when the text is rejected, and with the exception of reading [title]
    when the text is parsed into [null]. *)
Theorem extractWithAI_missing_fields (w : world) (html url : string)
    (message_content : option string) :
  chat_completion w (ai_prompt html url) = Ok message_content ->
  (forall parsed,
     JSON_parse w (reply_source message_content) = Ok parsed ->
     parsed ≠ JNull ->
     exists r,
       extractWithAI w html url = Ok r
       /\ (get_prop parsed "title" = Ok None ->
           x_title r = JStr "Untitled Article")
       /\ (get_prop parsed "content" = Ok None ->
           x_content r = JStr "No content extracted")
       /\ (forall v, get_prop parsed "title" = Ok (Some v) ->
             x_title r = if truthy v then v else JStr "Untitled Article")
       /\ (forall v, get_prop parsed "content" = Ok (Some v) ->
             x_content r
             = if truthy v then v else JStr "No content extracted"))
  /\ (JSON_parse w (reply_source message_content) = Ok JNull ->
      extractWithAI w html url = Raise (null_read "title"))
  /\ (forall e,
        JSON_parse w (reply_source message_content) = Raise e ->
        extractWithAI w html url = Raise e).
Proof.
  intros Hreply. rewrite extractWithAI_unfold, Hreply. cbn [mbind result_bind].
  split; [| split].
  - intros parsed Hparse Hnull. rewrite Hparse. cbn [mbind result_bind].
    destruct (get_prop_not_null parsed "title" Hnull) as [t Ht].
    destruct (get_prop_not_null parsed "content" Hnull) as [c Hc].
    rewrite Ht, Hc. cbn [mbind result_bind mret result_ret].
    eexists. split; [reflexivity |]. cbn [x_title x_content].
    repeat split.
    + intros [= ->]. reflexivity.
    + intros [= ->]. reflexivity.
    + intros v [= ->]. reflexivity.
    + intros v [= ->]. reflexivity.
  - intros Hparse. rewrite Hparse. reflexivity.
  - intros e Hparse. rewrite Hparse. reflexivity.
Qed.

Lemma extractWithAI_missing_fields_witness :
  (exists r,
     extractWithAI quiet_world "<p>hi</p>" "u" = Ok r
     /\ x_title r = JStr "Untitled Article"
     /\ x_content r = JStr "No content extracted")
  /\ extractWithAI null_reply_world short_page "u" = Raise (null_read "title")
  /\ extractWithAI truncated_reply_world short_page "u"
     = Raise json_syntax_error.
Proof.
  split; [| split].
  - destruct (proj1 (extractWithAI_missing_fields
                       quiet_world "<p>hi</p>" "u" None eq_refl)
                (JObj ∅) eq_refl) as (r & Hr & Ht & Hc & _);
      [discriminate |].
    exists r. split; [exact Hr |].
    split; [apply Ht | apply Hc]; reflexivity.
  - apply (proj1 (proj2 (extractWithAI_missing_fields
                           null_reply_world short_page "u" (Some "null")
                           eq_refl))).
    reflexivity.
  - apply (proj2 (proj2 (extractWithAI_missing_fields
                           truncated_reply_world short_page "u"
                           (Some truncated_reply) eq_refl))).
    reflexivity.
Defined.

(** Two answers of the model on which the extractor gives no result.
    The text [null] is valid JSON: it is parsed into the value [null],
    and reading [title] of it throws.  The object that breaks off inside
    its title is rejected by [JSON.parse].  Neither text is empty, so
    neither is replaced by the empty object before it is parsed. *)
Lemma extractWithAI_fails_on_reply :
  reply_source (Some "null") = "null"
  /\ reply_source (Some truncated_reply) = truncated_reply
  /\ extractWithAI null_reply_world short_page "u"
     = Raise (null_read "title")
  /\ extractWithAI truncated_reply_world short_page "u"
     = Raise json_syntax_error
  /\ ~ (exists r, extractWithAI null_reply_world short_page "u" = Ok r)
  /\ ~ (exists r, extractWithAI truncated_reply_world short_page "u" = Ok r).
Proof.
  assert (extractWithAI null_reply_world short_page "u"
          = Raise (null_read "title")) as Hnull by reflexivity.
  assert (extractWithAI truncated_reply_world short_page "u"
          = Raise json_syntax_error) as Hcut by reflexivity.
  split; [reflexivity |]. split; [reflexivity |].
  split; [exact Hnull |]. split; [exact Hcut |]. split.
  - intros [r Hr]. rewrite Hnull in Hr. discriminate.
  - intros [r Hr]. rewrite Hcut in Hr. discriminate.
Qed.

(** ** The speech synthesizer *)

Lemma read_chunks_stream_of (delivered chunks : list chunk) :
  read_chunks (stream_of delivered) chunks = Ok (chunks ++ delivered).
Proof.
  revert chunks. induction delivered as [|value more IH]; intros chunks; cbn.
  - now rewrite app_nil_r.
  - rewrite IH. now rewrite <- app_assoc.
Qed.

Lemma totalLength_from (chunks : list chunk) (n : nat) :
  foldl (fun acc chunk0 => acc + length chunk0) n chunks
  = n + length (concat chunks).
Proof.
  revert n. induction chunks as [|c more IH]; intros n; cbn.
  - lia.
  - rewrite IH, length_app. lia.
Qed.

Lemma totalLength_concat (chunks : list chunk) :
  totalLength chunks = length (concat chunks).
Proof. unfold totalLength. now rewrite totalLength_from. Qed.

(** Writing a chunk right after the part already filled. *)
Lemma array_set_after (filled chunk0 : chunk) (n : nat) :
  length chunk0 <= n ->
  array_set (filled ++ replicate n x00) chunk0 (length filled)
  = Some ((filled ++ chunk0) ++ replicate (n - length chunk0) x00).
Proof.
  intros Hfit. unfold array_set.
  rewrite length_app, length_replicate.
  destruct (Nat.leb_spec (length filled + length chunk0) (length filled + n));
    [| exfalso; lia].
  f_equal.
  replace n with (length chunk0 + (n - length chunk0)) at 1 by lia.
  rewrite replicate_add.
  replace (length filled) with (length filled + 0) at 1 by lia.
  rewrite list_inserts_app_r, list_inserts_0_r by now rewrite length_replicate.
  now rewrite <- app_assoc.
Qed.

Lemma copy_chunks_fill (chunks : list chunk) (filled : chunk) (n : nat) :
  length (concat chunks) <= n ->
  copy_chunks chunks (filled ++ replicate n x00) (length filled)
  = Ok (filled ++ concat chunks
        ++ replicate (n - length (concat chunks)) x00).
Proof.
  revert filled n. induction chunks as [|c more IH]; intros filled n Hfit.
  - cbn. now rewrite Nat.sub_0_r.
  - cbn [concat] in *. rewrite length_app in Hfit. cbn [copy_chunks].
    rewrite array_set_after by lia.
    rewrite <- length_app, IH by lia.
    rewrite <- !app_assoc, length_app. do 5 f_equal. lia.
Qed.

(** C8: when the provider's stream delivers a finite sequence of chunks
    and ends, the buffer the synthesizer returns is their concatenation
    in the order of arrival, byte for byte. *)
Theorem generateAudio_concat (w : world) (text0 apiKey : string)
    (chunks : list chunk) :
  ELEVENLABS_API_KEY w = Some apiKey ->
  apiKey ≠ "" ->
  textToSpeech_convert w text0 = Ok (stream_of chunks) ->
  generateAudio w text0 = Ok (concat chunks).
Proof.
  intros Hkey Hnonempty Hstream. unfold generateAudio.
  rewrite Hkey. destruct apiKey as [|c k]; [congruence |]. cbn [is_empty].
  rewrite Hstream. cbn [mbind result_bind].
  rewrite read_chunks_stream_of. cbn [app mbind result_bind].
  rewrite totalLength_concat.
  pose proof (copy_chunks_fill chunks [] (length (concat chunks))) as H.
  cbn [app length] in H. rewrite H by lia.
  now rewrite Nat.sub_diag, app_nil_r.
Qed.

Lemma generateAudio_concat_witness :
  generateAudio
    (sample_world page_404 JNull
       (stream_of [[x01; x02]; []; [x03]; [x04; x05; x06]]))
    "some text"
  = Ok [x01; x02; x03; x04; x05; x06].
Proof.
  apply (generateAudio_concat _ "some text" "key"
           [[x01; x02]; []; [x03]; [x04; x05; x06]]);
    [reflexivity | discriminate | reflexivity].
Defined.

(** ** The heuristic extractor *)

(** C1: on a page made of [<title>Foo</title>] and an [<article>] element
    with more than 200 characters of text, the pattern built for the
    [article] selector does not match (it asks for a [class] attribute),
    no other selector matches either, and the content becomes the text of
    the whole page, title included.  The coordinator returns this result
    without calling the model. *)
Theorem article_page_extraction (w : world) (url : string) :
  str_match true (re_selector "article") (strip_blocks article_page) = None
  /\ first_selector_body (strip_blocks article_page) contentSelectors = ""
  /\ extractWithTraditionalMethods article_page
     = {| title := "Foo"; content := "Foo " +:+ long_text |}
  /\ extractArticleContent w article_page url
     = Ok {| x_title := JStr "Foo"; x_content := JStr ("Foo " +:+ long_text) |}.
Proof.
  repeat split; vm_compute; reflexivity.
Qed.

(** The same page with [class='article'] on the element: now the first
    selector matches and the content is the text of the element. *)
Example classed_article_page_extraction :
  extractWithTraditionalMethods classed_article_page
  = {| title := "Foo"; content := long_text |}.
Proof. vm_compute. reflexivity. Qed.

Lemma heuristic_title_cases (cleanHtml : string) :
  heuristic_title cleanHtml =
  if is_empty (title_tag_text cleanHtml) then
    match str_match true re_meta_title cleanHtml with
    | Some metaTitleMatch => trim (group 1 metaTitleMatch)
    | None => "Untitled Article"
    end
  else title_tag_text cleanHtml.
Proof. reflexivity. Qed.

Lemma is_empty_true (s : string) : is_empty s = true <-> s = "".
Proof. destruct s; cbn; split; congruence. Qed.

(** C10, as the program has it: the heuristic title is empty only when
    the [<title>] element yields no text and an [og:title] attribute is
    matched whose content is all white space; when the [<title>] element
    yields no text and no [og:title] attribute is matched, the title is
    "Untitled Article". *)
Theorem heuristic_title_empty_only_blank_og (html : string) :
  let cleanHtml := strip_blocks html in
  let heuristic := extractWithTraditionalMethods html in
  (title heuristic = "" ->
   title_tag_text cleanHtml = ""
   /\ exists m, str_match true re_meta_title cleanHtml = Some m
                /\ trim (group 1 m) = "")
  /\ (title_tag_text cleanHtml = "" ->
      str_match true re_meta_title cleanHtml = None ->
      title heuristic = "Untitled Article").
Proof.
  cbn zeta. unfold extractWithTraditionalMethods. cbn [title].
  rewrite heuristic_title_cases.
  destruct (is_empty (title_tag_text (strip_blocks html))) eqn:Hempty.
  - apply is_empty_true in Hempty.
    destruct (str_match true re_meta_title (strip_blocks html)) as [m|] eqn:Hmeta.
    + split; [| discriminate]. intros Htrim. split; [exact Hempty |].
      exists m. now split.
    + split; [discriminate | reflexivity].
  - split.
    + intros Htitle. rewrite Htitle in Hempty. discriminate.
    + intros Htitle. rewrite Htitle in Hempty. discriminate.
Qed.

Lemma heuristic_title_empty_only_blank_og_witness :
  (title_tag_text (strip_blocks blank_og_title_page) = ""
   /\ exists m,
        str_match true re_meta_title (strip_blocks blank_og_title_page) = Some m
        /\ trim (group 1 m) = "")
  /\ title (extractWithTraditionalMethods "<p>hello</p>") = "Untitled Article".
Proof.
  split.
  - apply (proj1 (heuristic_title_empty_only_blank_og blank_og_title_page)).
    vm_compute. reflexivity.
  - apply (proj2 (heuristic_title_empty_only_blank_og "<p>hello</p>"));
      vm_compute; reflexivity.
Defined.

(** An [og:title] attribute with a blank content and no [<title>]
    element: the heuristic title is empty although the content is long
    enough, so the gate is triggered by the title alone. *)
Lemma blank_og_title_page_title_empty :
  title (extractWithTraditionalMethods blank_og_title_page) = ""
  /\ 200 <= String.length (content (extractWithTraditionalMethods blank_og_title_page))
  /\ forall w url,
       extractArticleContent w blank_og_title_page url
       = extractWithAI w blank_og_title_page url.
Proof.
  assert (extractWithTraditionalMethods blank_og_title_page
          = {| title := ""; content := long_text |}) as Hh
    by (vm_compute; reflexivity).
  rewrite Hh. cbn [title content]. split; [reflexivity |]. split.
  - vm_compute. lia.
  - intros w url. unfold extractArticleContent. rewrite Hh. reflexivity.
Qed.

(** ** Submission and retry *)

Lemma db_first_with_url_None (url : string) (s : system) :
  (forall id a, db s !! id = Some a -> Article.url a ≠ url) ->
  db_first_with_url url s = Ok (None, s).
Proof.
  intros Hfresh. unfold db_first_with_url.
  replace (filter (fun kv : N * Article.t => Article.url kv.2 = url) (db s))
    with (∅ : gmap N Article.t).
  - now rewrite map_to_list_empty.
  - symmetry. apply map_empty_filter. intros id a Ha. cbn. exact (Hfresh id a Ha).
Qed.

Lemma db_first_with_url_Some (url : string) (s : system) (id : N)
    (a : Article.t) :
  db s !! id = Some a -> Article.url a = url ->
  exists a', db_first_with_url url s = Ok (Some a', s).
Proof.
  intros Ha Hurl. unfold db_first_with_url.
  destruct (head (map_to_list
              (filter (fun kv : N * Article.t => Article.url kv.2 = url) (db s))))
    as [[id' a']|] eqn:Hhead.
  - now exists a'.
  - exfalso. apply head_None in Hhead.
    apply (proj1 (map_to_list_empty_iff _)) in Hhead.
    apply (proj1 (map_empty_filter _ _)) in Hhead.
    now apply (Hhead id a Ha).
Qed.

Lemma create_duplicate (url : string) (s : system) (id : N) (a : Article.t) :
  db s !! id = Some a -> Article.url a = url ->
  create url s = Raise (JsError "Article already exists").
Proof.
  intros Ha Hurl.
  destruct (db_first_with_url_Some url s id a Ha Hurl) as [a' Hq].
  unfold create, mbind, mutation_bind. now rewrite Hq.
Qed.

Lemma create_fresh (url : string) (s : system) :
  (forall id a, db s !! id = Some a -> Article.url a ≠ url) ->
  db s !! fresh (dom (db s)) = None
  /\ create url s
     = Ok (fresh (dom (db s)),
           System (<[fresh (dom (db s)) := new_article url]> (db s))
                  (scheduled s ++ [AtStart (fresh (dom (db s)))])).
Proof.
  intros Hfresh. split.
  - apply not_elem_of_dom, is_fresh.
  - unfold create, mbind, mutation_bind.
    now rewrite (db_first_with_url_None url s Hfresh).
Qed.

(** C5: submitting a URL some record already has is rejected as a
    duplicate and leaves the store as it was, with no record added and
    the existing ones untouched; submitting a fresh URL adds a record in
    state [processing] under an id no record had, returns that id, and
    leaves the run scheduled, not begun. *)
Theorem create_spec (url : string) (s : system) :
  ((exists id a, db s !! id = Some a /\ Article.url a = url) ->
   create url s = Raise (JsError "Article already exists")
   /\ commit (create url) s = s)
  /\ ((forall id a, db s !! id = Some a -> Article.url a ≠ url) ->
      exists articleId,
        db s !! articleId = None
        /\ create url s
           = Ok (articleId,
                 System (<[articleId := new_article url]> (db s))
                        (scheduled s ++ [AtStart articleId]))
        /\ Article.status (new_article url) = processing).
Proof.
  split.
  - intros (id & a & Ha & Hurl).
    pose proof (create_duplicate url s id a Ha Hurl) as Hdup.
    unfold commit. rewrite Hdup. now split.
  - intros Hfresh. destruct (create_fresh url s Hfresh) as [Hnone Hcreate].
    exists (fresh (dom (db s))). repeat split; assumption.
Qed.

Lemma create_spec_witness :
  (create "https://example.com/a" one_article
   = Raise (JsError "Article already exists")
   /\ commit (create "https://example.com/a") one_article = one_article)
  /\ exists articleId,
       db one_article !! articleId = None
       /\ create "https://example.com/b" one_article
          = Ok (articleId,
                System (<[articleId := new_article "https://example.com/b"]>
                          (db one_article))
                       (scheduled one_article ++ [AtStart articleId]))
       /\ Article.status (new_article "https://example.com/b") = processing.
Proof.
  split.
  - apply (proj1 (create_spec "https://example.com/a" one_article)).
    exists 0%N, (new_article "https://example.com/a"). split; reflexivity.
  - apply (proj2 (create_spec "https://example.com/b" one_article)).
    assert (db one_article = <[0%N := new_article "https://example.com/a"]> ∅)
      as Hdb by reflexivity.
    intros id a Ha Hurl. rewrite Hdb, lookup_insert in Ha.
    case_decide; [| now rewrite lookup_empty in Ha].
    injection Ha as <-. discriminate.
Defined.

Lemma retry_existing (articleId : N) (s : system) (a : Article.t) :
  db s !! articleId = Some a ->
  retry articleId s
  = Ok (articleId,
        System (<[articleId := reset_article a]> (db s))
               (scheduled s ++ [AtStart articleId])).
Proof.
  intros Ha. unfold retry, mbind, mutation_bind, db_get, db_patch.
  rewrite Ha. cbn [db scheduled]. now rewrite Ha.
Qed.

Lemma retry_missing (articleId : N) (s : system) :
  db s !! articleId = None ->
  retry articleId s = Raise (JsError "Article not found").
Proof.
  intros Hnone. unfold retry, mbind, mutation_bind, db_get. now rewrite Hnone.
Qed.

(** C6: retrying an article that has a record, whatever its state, leaves
    that record with title, content, audio reference and error message
    cleared and in state [processing], the other records as they were,
    and the new run scheduled behind this write; retrying an id without a
    record is rejected as not found and leaves the store as it was. *)
Theorem retry_spec (articleId : N) (s : system) :
  (forall a, db s !! articleId = Some a ->
     retry articleId s
     = Ok (articleId,
           System (<[articleId := reset_article a]> (db s))
                  (scheduled s ++ [AtStart articleId]))
     /\ reset_article a
        = {| Article.url := Article.url a; Article.title := None;
             Article.content := None; Article.audioFileId := None;
             Article.status := processing; Article.errorMessage := None |})
  /\ (db s !! articleId = None ->
      retry articleId s = Raise (JsError "Article not found")
      /\ commit (retry articleId) s = s).
Proof.
  split.
  - intros a Ha. split; [now apply retry_existing | reflexivity].
  - intros Hnone. pose proof (retry_missing articleId s Hnone) as Hretry.
    unfold commit. rewrite Hretry. now split.
Qed.

Lemma retry_spec_witness :
  (retry 0 race_5
   = Ok (0%N,
         System (<[0%N := reset_article
                           (with_audio 7 (new_article "https://example.com/a"))]>
                   (db race_5))
                (scheduled race_5 ++ [AtStart 0]))
   /\ reset_article (with_audio 7 (new_article "https://example.com/a"))
      = new_article "https://example.com/a")
  /\ (retry 5 initial = Raise (JsError "Article not found")
      /\ commit (retry 5) initial = initial).
Proof.
  split.
  - apply (proj1 (retry_spec 0 race_5)). vm_compute. reflexivity.
  - apply (proj2 (retry_spec 5 initial)). reflexivity.
Defined.

(** ** The orchestrator *)

Ltac unfold_action :=
  unfold processArticle, processArticle_try, try_catch, stage_extract,
    stage_synthesize, call_updateArticle, call_generateAudio, runQuery,
    runMutation, await, getArticle, updateArticle, completeArticle,
    markError, db_get, db_patch,
    mbind, action_bind, mutation_bind, mret, action_ret, mutation_ret in *.

Ltac step_cases :=
  repeat (case_match; simplify_eq; cbn [db scheduled fst snd] in * );
  rewrite ?lookup_insert_eq in *; simplify_eq.

(** The [try] block writes to one record only, and never removes it. *)
Lemma processArticle_try_keeps (w : world) (articleId : N) (s s1 : system)
    (a : Article.t) (r : result unit) :
  db s !! articleId = Some a ->
  processArticle_try w articleId s = (r, s1) ->
  is_Some (db s1 !! articleId).
Proof.
  intros Ha Hrun. unfold_action. rewrite Ha in Hrun.
  step_cases; eauto.
Qed.

(** C4, as the program has it: in a run for an article that has a record,
    every failure of the [try] block is caught and becomes a write of
    [status = error] with the message of the exception (or "Unknown
    error" for a thrown value that is no [Error]), and nothing is thrown
    out of the orchestrator. *)
Theorem processArticle_records_failure (w : world) (articleId : N)
    (s : system) (a : Article.t) :
  db s !! articleId = Some a ->
  exists s',
    processArticle w articleId s = (Ok tt, s')
    /\ forall e s1,
         processArticle_try w articleId s = (Raise e, s1) ->
         exists a1,
           db s1 !! articleId = Some a1
           /\ s' = System (<[articleId := with_error (error_text e) a1]> (db s1))
                          (scheduled s1)
           /\ Article.status (with_error (error_text e) a1) = error
           /\ Article.errorMessage (with_error (error_text e) a1)
              = Some (error_text e).
Proof.
  intros Ha.
  destruct (processArticle_try w articleId s) as [r s1] eqn:Htry.
  destruct (processArticle_try_keeps w articleId s s1 a r Ha Htry) as [a1 Ha1].
  unfold processArticle, try_catch. rewrite Htry.
  destruct r as [[] | e].
  - eexists. split; [reflexivity |]. intros e s2 Heq. discriminate.
  - unfold runMutation, markError, db_patch. rewrite Ha1.
    eexists. split; [reflexivity |].
    intros e' s2 Heq. injection Heq as <- <-.
    exists a1. repeat split; assumption.
Qed.

Lemma processArticle_records_failure_witness :
  exists s',
    processArticle world_404 0 one_article = (Ok tt, s')
    /\ forall e s1,
         processArticle_try world_404 0 one_article = (Raise e, s1) ->
         exists a1,
           db s1 !! 0%N = Some a1
           /\ s' = System (<[0%N := with_error (error_text e) a1]> (db s1))
                          (scheduled s1)
           /\ Article.status (with_error (error_text e) a1) = error
           /\ Article.errorMessage (with_error (error_text e) a1)
              = Some (error_text e).
Proof.
  apply (processArticle_records_failure world_404 0 one_article
           (new_article "https://example.com/a")).
  vm_compute. reflexivity.
Defined.

(** A run for an id without a record: the [try] block throws "Article not
    found", the error write is rejected in turn, and that exception
    leaves the orchestrator; no record is written. *)
Lemma processArticle_missing_record_escapes :
  processArticle_try quiet_world 3 initial
  = (Raise (JsError "Article not found"), initial)
  /\ processArticle quiet_world 3 initial = (Raise patch_missing, initial)
  /\ ~ (exists s' a,
          processArticle quiet_world 3 initial = (Ok tt, s')
          /\ db s' !! 3%N = Some a /\ Article.status a = error).
Proof.
  assert (processArticle quiet_world 3 initial = (Raise patch_missing, initial))
    as Hrun by reflexivity.
  split; [reflexivity | split; [exact Hrun |]].
  intros (s' & a & Hok & _). rewrite Hrun in Hok. discriminate.
Qed.

(** C7: for a freshly submitted article whose page fetch answers with a
    response that is not [ok], the run ends with the record in state
    [error], the status text of the response inside the error message,
    and title, content and audio reference absent. *)
Theorem fetch_failure_recorded (w : world) (url : string) (s : system)
    (page : response) :
  (forall id a, db s !! id = Some a -> Article.url a ≠ url) ->
  fetch w url = Ok page ->
  ok page = false ->
  exists articleId s1 s2,
    create url s = Ok (articleId, s1)
    /\ processArticle w articleId s1 = (Ok tt, s2)
    /\ db s2 !! articleId
       = Some {| Article.url := url; Article.title := None;
                 Article.content := None; Article.audioFileId := None;
                 Article.status := error;
                 Article.errorMessage :=
                   Some ("Failed to fetch article: " +:+ statusText page) |}.
Proof.
  intros Hfresh Hfetch Hok.
  destruct (create_fresh url s Hfresh) as [_ Hcreate].
  eexists _, _, _. split; [exact Hcreate |].
  unfold_action. cbn [db scheduled].
  rewrite lookup_insert_eq. cbn [new_article Article.url].
  rewrite Hfetch, Hok. cbn [negb db scheduled].
  rewrite lookup_insert_eq. split; [reflexivity |].
  cbn [db]. now rewrite lookup_insert_eq.
Qed.

Lemma fetch_failure_recorded_witness :
  exists articleId s1 s2,
    create "https://example.com/a" initial = Ok (articleId, s1)
    /\ processArticle world_404 articleId s1 = (Ok tt, s2)
    /\ db s2 !! articleId
       = Some {| Article.url := "https://example.com/a";
                 Article.title := None;
                 Article.content := None; Article.audioFileId := None;
                 Article.status := error;
                 Article.errorMessage :=
                   Some ("Failed to fetch article: " +:+ statusText page_404) |}.
Proof.
  apply (fetch_failure_recorded world_404 "https://example.com/a" initial
           page_404).
  - intros id a Ha. cbn in Ha. rewrite lookup_empty in Ha. discriminate.
  - reflexivity.
  - reflexivity.
Defined.

(** ** The orchestrator cut in pieces is the orchestrator *)

Lemma run_steps_processArticle (w : world) (articleId : N) (s : system) :
  run_steps w 4 (AtStart articleId) s
  = match processArticle w articleId s with
    | (Ok _, s') => (Finished, s')
    | (Raise e, s') => (Escaped e, s')
    end.
Proof.
  unfold run_steps, run_step. unfold_action.
  repeat (case_match; simplify_eq; cbn [db scheduled fst snd] in * );
    try reflexivity; try congruence.
Qed.

(** ** The field-presence conditions under interleaving *)

Lemma status_always_ok (a : Article.t) : status_ok a.
Proof. unfold status_ok. destruct (Article.status a); set_solver. Qed.

Lemma record_ok_weak (a : Article.t) : record_ok a -> record_weak_ok a.
Proof. unfold record_ok, record_weak_ok. tauto. Qed.

Ltac record_cases :=
  unfold record_ok, record_weak_ok, processing_ok, completed_has_audio,
    completed_has_text, error_ok, has_text in *;
  cbn [new_article reset_article with_text with_audio with_error
       Article.status Article.title Article.content Article.audioFileId
       Article.errorMessage] in *;
  repeat split; try apply status_always_ok; intros;
  try discriminate; try tauto; eauto.

Lemma record_ok_new (url : string) : record_ok (new_article url).
Proof. record_cases. Qed.

Lemma record_ok_reset (a : Article.t) : record_ok (reset_article a).
Proof. record_cases. Qed.

Lemma record_ok_with_text (t c : string) (a : Article.t) :
  record_ok a -> record_ok (with_text t c a).
Proof. record_cases. Qed.

Lemma record_ok_with_audio (f : N) (a : Article.t) :
  has_text a -> record_ok (with_audio f a).
Proof. record_cases. Qed.

Lemma record_ok_with_error (message : string) (a : Article.t) :
  record_ok (with_error message a).
Proof. record_cases. Qed.

Lemma record_weak_ok_with_text (t c : string) (a : Article.t) :
  record_weak_ok a -> record_weak_ok (with_text t c a).
Proof. record_cases. Qed.

Lemma record_weak_ok_with_audio (f : N) (a : Article.t) :
  record_weak_ok (with_audio f a).
Proof. record_cases. Qed.

Lemma store_insert (P : Article.t -> Prop) (m : gmap N Article.t) (i : N)
    (a : Article.t) :
  (forall id b, m !! id = Some b -> P b) ->
  P a ->
  forall id b, <[i := a]> m !! id = Some b -> P b.
Proof.
  intros Hm Ha id b. rewrite lookup_insert.
  case_decide; [intros [= <-]; exact Ha | apply Hm].
Qed.

Lemma store_weak_ok_insert (s : system) (i : N) (a : Article.t)
    (rs : list run) :
  store_weak_ok s -> record_weak_ok a ->
  store_weak_ok (System (<[i := a]> (db s)) rs).
Proof. intros Hs Ha. exact (store_insert record_weak_ok _ i a Hs Ha). Qed.

Lemma store_ok_insert (s : system) (i : N) (a : Article.t) (rs : list run) :
  store_ok s -> record_ok a ->
  store_ok (System (<[i := a]> (db s)) rs).
Proof. intros Hs Ha. exact (store_insert record_ok _ i a Hs Ha). Qed.

Lemma step_advance (may_retry : system -> N -> Prop) (w : world)
    (before : list run) (r : run) (after : list run) (s : system) :
  scheduled s = before ++ r :: after ->
  step may_retry s (advance_run w before r after s).
Proof.
  intros Hr. unfold advance_run.
  destruct (run_step w r s) as [o s'] eqn:Hstep.
  now apply (step_run may_retry w r before after s s' o).
Qed.

Lemma run_step_effect (w : world) (r : run) (s s' : system) (o : outcome) :
  run_step w r s = (o, s') -> run_effect s r o s'.
Proof.
  intros Hstep. destruct r as [i | i x | i f | i e]; unfold run_step in Hstep;
    unfold_action;
    repeat (case_match; simplify_eq; cbn [db scheduled fst snd] in * );
    first [ by (apply effect_none; [reflexivity | congruence])
          | by (eapply effect_text; cbn [run_article db];
                [eassumption | reflexivity | congruence])
          | by (eapply effect_audio; cbn [run_article db];
                [reflexivity | eassumption | reflexivity])
          | by (eapply effect_error; cbn [run_article db];
                [eassumption | reflexivity]) ].
Qed.

Lemma commit_create_cases (url : string) (s : system) :
  commit (create url) s = s
  \/ exists articleId,
       db s !! articleId = None
       /\ commit (create url) s
          = System (<[articleId := new_article url]> (db s))
                   (scheduled s ++ [AtStart articleId]).
Proof.
  unfold commit, create, mbind, mutation_bind, db_first_with_url.
  destruct (head _) as [[id a]|]; cbn; [now left |].
  right. exists (fresh (dom (db s))). split; [| reflexivity].
  apply not_elem_of_dom, is_fresh.
Qed.

Lemma commit_retry_cases (articleId : N) (s : system) :
  commit (retry articleId) s = s
  \/ exists a,
       db s !! articleId = Some a
       /\ commit (retry articleId) s
          = System (<[articleId := reset_article a]> (db s))
                   (scheduled s ++ [AtStart articleId]).
Proof.
  destruct (db s !! articleId) as [a|] eqn:Ha.
  - right. exists a. split; [reflexivity |].
    unfold commit. now rewrite (retry_existing articleId s a Ha).
  - left. unfold commit. now rewrite (retry_missing articleId s Ha).
Qed.

(** Without the title and content of completed records, the conditions
    survive every step of the system, retries at any time included. *)
Lemma step_store_weak_ok (s s' : system) :
  step any_time s s' -> store_weak_ok s -> store_weak_ok s'.
Proof.
  intros Hstep Hs. destruct Hstep as [url s | articleId s _ | w r before after s s' o Hr Hrun].
  - destruct (commit_create_cases url s) as [-> | (i & _ & ->)]; [exact Hs |].
    apply store_weak_ok_insert; [exact Hs | apply record_ok_weak, record_ok_new].
  - destruct (commit_retry_cases articleId s) as [-> | (a & _ & ->)]; [exact Hs |].
    apply store_weak_ok_insert; [exact Hs | apply record_ok_weak, record_ok_reset].
  - destruct (run_step_effect w r s s' o Hrun)
      as [o s' Hdb _ | a t c o s' Ha Hdb _ | a i f s' _ Ha Hdb | a m s' Ha Hdb];
      unfold store_weak_ok; cbn [db]; rewrite Hdb.
    + exact Hs.
    + apply (store_insert record_weak_ok); [exact Hs |].
      apply record_weak_ok_with_text. exact (Hs _ _ Ha).
    + apply (store_insert record_weak_ok);
        [exact Hs | apply record_weak_ok_with_audio].
    + apply (store_insert record_weak_ok);
        [exact Hs | apply record_ok_weak, record_ok_with_error].
Qed.

Lemma run_ready_insert_other (s : system) (i : N) (a : Article.t)
    (rs : list run) (r : run) :
  run_article r ≠ i \/ db s !! i = None ->
  run_ready s r -> run_ready (System (<[i := a]> (db s)) rs) r.
Proof.
  intros Hother. destruct r as [j | j x | j f | j e]; cbn; try done.
  intros (b & Hb & Htext). exists b. split; [| exact Htext].
  rewrite lookup_insert_ne; [exact Hb |].
  destruct Hother as [Hne | Hnone]; cbn in *; congruence.
Qed.

(** A write that keeps title and content keeps the waiting runs ready. *)
Lemma run_ready_insert_text (s : system) (i : N) (a a' : Article.t)
    (rs : list run) (r : run) :
  db s !! i = Some a ->
  (has_text a -> has_text a') ->
  run_ready s r -> run_ready (System (<[i := a']> (db s)) rs) r.
Proof.
  intros Ha Hkeep. destruct r as [j | j x | j f | j e]; cbn; try done.
  intros (b & Hb & Htext). rewrite lookup_insert. case_decide as Hij.
  - subst j. exists a'. split; [reflexivity |]. apply Hkeep. congruence.
  - exists b. now split.
Qed.

Lemma run_ready_same_db (s s' : system) (r : run) :
  db s' = db s -> run_ready s r -> run_ready s' r.
Proof. intros Hdb. destruct r; cbn; try done. now rewrite Hdb. Qed.

Lemma replace_run_Forall (P : run -> Prop) (before after : list run)
    (o : outcome) :
  Forall P before -> Forall P after ->
  (forall r', o = Continue r' -> P r') ->
  Forall P (replace_run before after o).
Proof.
  intros Hb Ha Ho. destruct o as [r' | | e]; cbn; apply Forall_app; split;
    try assumption.
  constructor; [now apply Ho | assumption].
Qed.

(** With retries kept away from articles that have a run under way, the
    conditions survive every step, together with the readiness of the
    runs that are about to complete. *)
Lemma step_consistent (s s' : system) :
  step when_idle s s' -> consistent s -> consistent s'.
Proof.
  intros Hstep [Hs Hruns].
  destruct Hstep as [url s | articleId s Hidle | w r before after s s' o Hr Hrun].
  - destruct (commit_create_cases url s) as [-> | (i & Hi & ->)]; [now split |].
    split.
    + apply store_ok_insert; [exact Hs | apply record_ok_new].
    + cbn [scheduled]. apply Forall_app. split.
      * eapply Forall_impl; [exact Hruns |]. intros r Hready.
        apply run_ready_insert_other; [now right | exact Hready].
      * constructor; [exact I | constructor].
  - destruct (commit_retry_cases articleId s) as [-> | (a & Ha & ->)];
      [now split |].
    split.
    + apply store_ok_insert; [exact Hs | apply record_ok_reset].
    + cbn [scheduled]. apply Forall_app. split.
      * unfold when_idle in Hidle.
        pose proof (proj2 (Forall_and _ _) (conj Hruns Hidle)) as Hboth.
        eapply Forall_impl; [exact Hboth |]. intros r [Hready Hne].
        apply run_ready_insert_other; [now left | exact Hready].
      * constructor; [exact I | constructor].
  - rewrite Hr in Hruns. apply Forall_app in Hruns as [Hbefore Hrest].
    apply Forall_cons in Hrest as [Hready Hafter].
    destruct (run_step_effect w r s s' o Hrun)
      as [o s' Hdb Hnot | a t c o s' Ha Hdb Ho | a i f s' -> Ha Hdb | a m s' Ha Hdb].
    + split.
      * unfold store_ok. cbn [db]. rewrite Hdb. exact Hs.
      * cbn [scheduled]. apply replace_run_Forall.
        -- eapply Forall_impl; [exact Hbefore |]. intros r0.
           now apply run_ready_same_db.
        -- eapply Forall_impl; [exact Hafter |]. intros r0.
           now apply run_ready_same_db.
        -- intros r' ->. destruct r'; cbn; try done. now destruct (Hnot articleId audioFileId).
    + assert (forall r0, run_ready s r0 ->
                run_ready (System (db s') (replace_run before after o)) r0)
        as Hkeep.
      { intros r0. cbn. rewrite Hdb.
        apply (run_ready_insert_text s _ a); [exact Ha |].
        intros _. split; cbn; eauto. }
      split.
      * unfold store_ok. cbn [db]. rewrite Hdb.
        apply (store_insert record_ok); [exact Hs |].
        apply record_ok_with_text. exact (Hs _ _ Ha).
      * cbn [scheduled]. apply replace_run_Forall.
        -- eapply Forall_impl; [exact Hbefore | exact Hkeep].
        -- eapply Forall_impl; [exact Hafter | exact Hkeep].
        -- intros r' ->. destruct r' as [j | j x | j f | j e]; cbn; try done.
           rewrite (Ho j f eq_refl), Hdb, lookup_insert_eq.
           eexists. split; [reflexivity |]. split; cbn; eauto.
    + destruct Hready as (b & Hb & Htext). rewrite Ha in Hb. injection Hb as <-.
      assert (forall r0, run_ready s r0 ->
                run_ready (System (db s') (replace_run before after Finished)) r0)
        as Hkeep.
      { intros r0. cbn. rewrite Hdb.
        apply (run_ready_insert_text s _ a); [exact Ha |].
        intros [Ht Hc]. split; cbn; assumption. }
      split.
      * unfold store_ok. cbn [db]. rewrite Hdb.
        apply (store_insert record_ok); [exact Hs | now apply record_ok_with_audio].
      * cbn [scheduled replace_run]. apply Forall_app. split.
        -- eapply Forall_impl; [exact Hbefore | exact Hkeep].
        -- eapply Forall_impl; [exact Hafter | exact Hkeep].
    + assert (forall r0, run_ready s r0 ->
                run_ready (System (db s') (replace_run before after Finished)) r0)
        as Hkeep.
      { intros r0. cbn. rewrite Hdb.
        apply (run_ready_insert_text s _ a); [exact Ha |].
        intros [Ht Hc]. split; cbn; assumption. }
      split.
      * unfold store_ok. cbn [db]. rewrite Hdb.
        apply (store_insert record_ok); [exact Hs | apply record_ok_with_error].
      * cbn [scheduled replace_run]. apply Forall_app. split.
        -- eapply Forall_impl; [exact Hbefore | exact Hkeep].
        -- eapply Forall_impl; [exact Hafter | exact Hkeep].
Qed.

Lemma initial_consistent : consistent initial.
Proof.
  split; [| constructor]. intros id a Ha. cbn in Ha.
  rewrite lookup_empty in Ha. discriminate.
Qed.

Lemma reachable_consistent (s : system) :
  reachable when_idle s -> consistent s.
Proof.
  unfold reachable. intros Hreach.
  apply (rtc_ind_r (R := step when_idle) (fun s0 => consistent s0) initial);
    [exact initial_consistent | | exact Hreach].
  intros s1 s2 _ Hstep IH. exact (step_consistent s1 s2 Hstep IH).
Qed.

Lemma reachable_store_weak_ok (s : system) :
  reachable any_time s -> store_weak_ok s.
Proof.
  unfold reachable. intros Hreach.
  apply (rtc_ind_r (R := step any_time) (fun s0 => store_weak_ok s0) initial);
    [| | exact Hreach].
  - intros id a Ha. cbn in Ha. rewrite lookup_empty in Ha. discriminate.
  - intros s1 s2 _ Hstep IH. exact (step_store_weak_ok s1 s2 Hstep IH).
Qed.

(** C3, as the program has it: after every operation (submit, retry and
    each record write of a run, in any interleaving) every record has a
    status among processing, completed and error, no audio reference
    while processing, an audio reference when completed and an error
    message when in error; a completed record also has its title and
    content as long as no retry is issued for an article one of whose
    runs is still under way. *)
Theorem store_conditions (s : system) :
  (reachable any_time s -> store_weak_ok s)
  /\ (reachable when_idle s -> store_ok s).
Proof.
  split.
  - apply reachable_store_weak_ok.
  - intros Hreach. exact (proj1 (reachable_consistent s Hreach)).
Qed.

Lemma race_reachable : reachable any_time race_5.
Proof.
  assert (step any_time initial race_1) as H1 by apply step_create.
  assert (step any_time race_1 race_2) as H2
    by (apply step_advance; reflexivity).
  assert (step any_time race_2 race_3) as H3
    by (apply step_advance; vm_compute; reflexivity).
  assert (step any_time race_3 race_4) as H4
    by (apply step_retry; exact I).
  assert (step any_time race_4 race_5) as H5
    by (apply step_advance; vm_compute; reflexivity).
  unfold reachable.
  eapply rtc_l; [exact H1 |]. eapply rtc_l; [exact H2 |].
  eapply rtc_l; [exact H3 |]. eapply rtc_l; [exact H4 |].
  apply rtc_once. exact H5.
Qed.

Lemma store_conditions_witness :
  store_weak_ok race_5 /\ store_ok one_article.
Proof.
  split.
  - apply (proj1 (store_conditions race_5)). exact race_reachable.
  - apply (proj2 (store_conditions one_article)).
    apply rtc_once. apply (step_create when_idle "https://example.com/a" initial).
Defined.

(** A retry between a run's write of title and content and its
    completion: the record ends completed, with an audio reference and
    neither title nor content. *)
Lemma race_breaks_completed :
  reachable any_time race_5
  /\ db race_5 !! 0%N
     = Some {| Article.url := "https://example.com/a"; Article.title := None;
               Article.content := None; Article.audioFileId := Some 7%N;
               Article.status := completed; Article.errorMessage := None |}
  /\ ~ store_ok race_5.
Proof.
  assert (db race_5 !! 0%N
          = Some {| Article.url := "https://example.com/a";
                    Article.title := None; Article.content := None;
                    Article.audioFileId := Some 7%N;
                    Article.status := completed;
                    Article.errorMessage := None |}) as Hrec
    by (vm_compute; reflexivity).
  split; [exact race_reachable |]. split; [exact Hrec |].
  intros Hok. destruct (Hok _ _ Hrec) as (_ & _ & _ & Htext & _).
  destruct (Htext eq_refl) as [[t Ht] _]. discriminate.
Qed.

(** * Further properties *)

(** ** Patterns that begin with a fixed character *)

Lemma canon_lt (icase : bool) (c : ascii) :
  canon icase c = canon icase "<"%char -> c = "<"%char.
Proof.
  destruct icase;
    destruct c as [[] [] [] [] [] [] [] []]; vm_compute; congruence.
Qed.

Lemma rmatch_starts_with (icase : bool) (a : ascii) (r : regex) :
  starts_with a r = true ->
  forall st k res,
    rmatch icase r st k = Some res ->
    exists c s', rest st = String c s' /\ canon icase c = canon icase a.
Proof.
  induction r as [| p | negated items | r1 IH1 r2 IH2 | greedy r1 IH1
                  | n r1 IH1 | r1 IH1 | r1 IH1 |]; cbn [starts_with];
    try discriminate; intros Hstart st k res Hres; cbn [rmatch] in Hres.
  - apply Ascii.eqb_eq in Hstart as ->.
    destruct (rest st) as [|c s']; [discriminate |].
    destruct (Ascii.eqb_spec (canon icase c) (canon icase a)); [| discriminate].
    now exists c, s'.
  - exact (IH1 Hstart _ _ _ Hres).
  - exact (IH1 Hstart _ _ _ Hres).
  - exact (IH1 Hstart _ _ _ Hres).
Qed.

Lemma exec_at_no_lt (icase : bool) (r : regex) (p : option ascii) (s : string) :
  starts_with "<" r = true ->
  has_char "<" s = false ->
  exec_at icase r p s = None.
Proof.
  intros Hstart Hno. unfold exec_at.
  destruct (rmatch icase r (MState p s []) Some) as [res|] eqn:Hres;
    [| reflexivity].
  apply (rmatch_starts_with icase "<" r Hstart) in Hres as (c & s' & Hrest & Hc).
  cbn in Hrest. subst s. apply canon_lt in Hc as ->. discriminate.
Qed.

Lemma search_from_no_lt (icase : bool) (r : regex) (p : option ascii)
    (s : string) :
  starts_with "<" r = true ->
  has_char "<" s = false ->
  search_from icase r p s = None.
Proof.
  intros Hstart. revert p. induction s as [|c s IH]; intros p Hno;
    cbn [search_from]; rewrite (exec_at_no_lt icase r p _ Hstart Hno);
    [reflexivity |].
  apply IH. cbn in Hno. now apply orb_false_iff in Hno as [_ Hno].
Qed.

Lemma replace_from_no_lt (icase : bool) (r : regex) (by_ : string)
    (p : option ascii) (s : string) :
  starts_with "<" r = true ->
  has_char "<" s = false ->
  replace_from icase r by_ p s 0 = s.
Proof.
  intros Hstart. revert p. induction s as [|c s IH]; intros p Hno;
    cbn [replace_from]; rewrite (exec_at_no_lt icase r p _ Hstart Hno);
    [reflexivity |].
  rewrite IH; [reflexivity |].
  cbn in Hno. now apply orb_false_iff in Hno as [_ Hno].
Qed.

Lemma program_patterns_start_with_lt (tag selector : string) :
  starts_with "<" (re_block tag) = true
  /\ starts_with "<" re_title = true
  /\ starts_with "<" re_meta_title = true
  /\ starts_with "<" re_body = true
  /\ starts_with "<" re_tag = true
  /\ starts_with "<" (re_selector selector) = true.
Proof. repeat split; reflexivity. Qed.

(** ** White space: [replace(/\s+/g, ' ')] and [trim] *)

Lemma trim_start_length (s : string) :
  String.length (trim_start s) <= String.length s.
Proof.
  induction s as [|c s IH]; cbn; [lia |].
  destruct (is_space c); cbn; lia.
Qed.

Lemma rmatch_space (st : mstate) (k : mstate -> option mstate) :
  rmatch false (Class false [Space]) st k =
  match rest st with
  | String c s' => if is_space c then k (advance st c s') else None
  | EmptyString => None
  end.
Proof.
  cbn [rmatch]. destruct (rest st) as [|c s']; [reflexivity |].
  unfold class_has. cbn [existsb item_has xorb orb]. now rewrite orb_false_r.
Qed.

(** The greedy run of [\s] stops at the first character that is not white
    space. *)
Lemma spaces_loop (fuel : nat) (st : mstate) :
  String.length (rest st) < fuel ->
  exists st',
    star_loop (rmatch false (Class false [Space])) true Some fuel st = Some st'
    /\ rest st' = trim_start (rest st).
Proof.
  revert st. induction fuel as [|fuel IH]; intros st Hfuel; [lia |].
  cbn [star_loop]. rewrite rmatch_space.
  destruct st as [p s caps0]. cbn [rest] in *.
  destruct s as [|c s'].
  - cbn. eexists. split; reflexivity.
  - cbn [trim_start]. destruct (is_space c) eqn:Hc.
    + cbn [advance rest String.length].
      destruct (Nat.eqb_spec (String.length s') (S (String.length s')));
        [lia |].
      destruct (IH (MState (Some c) s' caps0)) as (st' & Hloop & Hrest);
        [cbn in *; lia |].
      unfold advance. cbn [caps rest] in *. rewrite Hloop. cbn.
      now exists st'.
    + cbn. eexists. split; [reflexivity |]. reflexivity.
Qed.

Lemma exec_at_spaces (p : option ascii) (s : string) :
  match s with
  | String c s' =>
      if is_space c
      then exists st, exec_at false re_spaces p s = Some st
                      /\ rest st = trim_start s'
      else exec_at false re_spaces p s = None
  | EmptyString => exec_at false re_spaces p s = None
  end.
Proof.
  destruct s as [|c s']; [reflexivity |].
  unfold exec_at, re_spaces, Plus.
  change (rmatch false (Seq (Class false [Space]) (Star true (Class false [Space])))
            (MState p (String c s') []) Some)
    with (rmatch false (Class false [Space]) (MState p (String c s') [])
            (fun st' => star_loop (rmatch false (Class false [Space])) true Some
                          (S (String.length (rest st'))) st')).
  rewrite rmatch_space. cbn [rest].
  destruct (is_space c); [| reflexivity].
  apply (spaces_loop _ (advance (MState p (String c s') []) c s')).
  cbn. lia.
Qed.

(** The replacement of white-space runs by one blank is [collapse]:
    outside a run when nothing is left to drop, inside a run while the
    rest of the run is being dropped. *)
Lemma replace_spaces_collapse (s : string) :
  forall p,
    replace_from false re_spaces " " p s 0 = collapse false s
    /\ replace_from false re_spaces " " p s
         (String.length s - String.length (trim_start s))
       = collapse true s.
Proof.
  induction s as [|c s IH]; intros p.
  - split; reflexivity.
  - pose proof (exec_at_spaces p (String c s)) as Hexec.
    pose proof (trim_start_length s) as Hlen.
    cbn [collapse trim_start] in *. destruct (is_space c) eqn:Hc.
    + destruct Hexec as (st & Hexec & Hrest).
      assert (replace_from false re_spaces " " (Some c) s
                (String.length s - String.length (trim_start s))
              = collapse true s) as Hin by apply IH.
      split.
      * cbn [replace_from]. rewrite Hexec, Hrest. cbn [String.length].
        replace (S (String.length s) - String.length (trim_start s))
          with (S (String.length s - String.length (trim_start s))) by lia.
        now rewrite Hin.
      * cbn [String.length].
        replace (S (String.length s) - String.length (trim_start s))
          with (S (String.length s - String.length (trim_start s))) by lia.
        cbn [replace_from]. exact Hin.
    + assert (replace_from false re_spaces " " p (String c s) 0
              = String c (collapse false s)) as Hout.
      { cbn [replace_from]. rewrite Hexec. f_equal. apply IH. }
      split; [exact Hout |].
      now rewrite Nat.sub_diag.
Qed.

Lemma replace_all_spaces (s : string) :
  replace_all false re_spaces " " s = collapse false s.
Proof. unfold replace_all. apply replace_spaces_collapse. Qed.

Lemma single_blanks_collapse (s : string) :
  single_blanks false (collapse false s) = true
  /\ single_blanks true (collapse true s) = true.
Proof.
  induction s as [|c s [IHout IHin]]; [split; reflexivity |].
  cbn [collapse]. destruct (is_space c) eqn:Hc.
  - split; [| exact IHin]. cbn. exact IHin.
  - cbn [single_blanks]. rewrite Hc. now split.
Qed.

Lemma single_blanks_weaken (b : bool) (s : string) :
  single_blanks true s = true -> single_blanks b s = true.
Proof.
  destruct s as [|c s]; [reflexivity |]. cbn.
  destruct (is_space c); [| tauto].
  rewrite andb_false_r. discriminate.
Qed.

Lemma single_blanks_trim_start (b : bool) (s : string) :
  single_blanks b s = true -> single_blanks true (trim_start s) = true.
Proof.
  revert b. induction s as [|c s IH]; intros b; [reflexivity |].
  cbn [trim_start]. destruct (is_space c) eqn:Hc.
  - cbn [single_blanks]. rewrite Hc. intros H.
    apply andb_true_iff in H as [_ H]. exact (IH true H).
  - cbn [single_blanks]. now rewrite Hc.
Qed.

Lemma single_blanks_trim_end (s : string) :
  forall b, single_blanks b s = true -> single_blanks b (trim_end s) = true.
Proof.
  induction s as [|c s IH]; intros b; [reflexivity |].
  cbn [trim_end single_blanks]. destruct (is_space c) eqn:Hc.
  - intros H. apply andb_true_iff in H as [Hhead Htail].
    specialize (IH true Htail).
    destruct (trim_end s) as [|c' t]; [reflexivity |].
    cbn [single_blanks]. rewrite Hc, Hhead. exact IH.
  - intros H. specialize (IH false H).
    destruct (trim_end s) as [|c' t]; cbn [single_blanks]; rewrite Hc;
      [reflexivity | exact IH].
Qed.

Lemma trim_end_no_space (s : string) : ends_with_space (trim_end s) = false.
Proof.
  induction s as [|c s IH]; [reflexivity |]. cbn [trim_end].
  destruct (trim_end s) as [|c' t].
  - destruct (is_space c) eqn:Hc; [reflexivity | cbn; exact Hc].
  - exact IH.
Qed.

Lemma trim_start_no_space (s : string) :
  begins_with_space (trim_start s) = false.
Proof.
  induction s as [|c s IH]; [reflexivity |]. cbn [trim_start].
  destruct (is_space c) eqn:Hc; [exact IH | cbn; exact Hc].
Qed.

Lemma trim_end_keeps_start (s : string) :
  begins_with_space s = false -> begins_with_space (trim_end s) = false.
Proof.
  destruct s as [|c s]; [reflexivity |]. cbn. intros Hc.
  destruct (trim_end s); rewrite ?Hc; cbn; try rewrite Hc; reflexivity.
Qed.

Lemma trim_trimmed (s : string) : trimmed (trim s) = true.
Proof.
  unfold trimmed, trim.
  rewrite trim_end_no_space, trim_end_keeps_start by apply trim_start_no_space.
  reflexivity.
Qed.

Lemma tidy_trim_collapse (s : string) : tidy (trim (collapse false s)) = true.
Proof.
  unfold tidy, trim. rewrite trim_end_no_space, andb_true_r.
  apply single_blanks_trim_end, (single_blanks_trim_start false).
  apply single_blanks_collapse.
Qed.

(** ** Where the continuation is called *)

Section Trace.
Variable icase : bool.
Variable R : mstate -> mstate -> Prop.
Hypothesis R_refl : forall st, R st st.
Hypothesis R_trans : forall st1 st2 st3, R st1 st2 -> R st2 st3 -> R st1 st3.
Hypothesis R_advance :
  forall st c s', rest st = String c s' -> R st (advance st c s').
Hypothesis R_cap : forall st st' n v, R st st' -> R st (set_cap n v st').

Lemma star_loop_rel (body : mstate -> (mstate -> option mstate) -> option mstate)
    (greedy : bool) (k : mstate -> option mstate) :
  (forall st0 k0 res,
     body st0 k0 = Some res -> exists st', k0 st' = Some res /\ R st0 st') ->
  forall fuel st res,
    star_loop body greedy k fuel st = Some res ->
    exists st', k st' = Some res /\ R st st'.
Proof.
  intros Hbody. induction fuel as [|fuel IH]; intros st res Hloop;
    cbn [star_loop] in Hloop.
  - now exists st.
  - assert (body st (fun st' =>
              if Nat.eqb (String.length (rest st')) (String.length (rest st))
              then None else star_loop body greedy k fuel st') = Some res ->
            exists st', k st' = Some res /\ R st st') as Hagain.
    { intros Hres. apply Hbody in Hres as (st1 & Hk1 & HR1).
      destruct (Nat.eqb _ _); [discriminate |].
      apply IH in Hk1 as (st' & Hk' & HR'). exists st'. split; [exact Hk' |].
      exact (R_trans _ _ _ HR1 HR'). }
    destruct greedy; apply orelse_Some in Hloop as [H | H]; eauto.
Qed.

Lemma rmatch_rel (r : regex) (st : mstate) (k : mstate -> option mstate)
    (res : mstate) :
  rmatch icase r st k = Some res ->
  exists st', k st' = Some res /\ R st st'.
Proof.
  revert st k res.
  induction r as [| p | negated items | r1 IH1 r2 IH2 | greedy r1 IH1
                  | n r1 IH1 | r1 IH1 | r1 IH1 |]; intros st k res Hres;
    cbn [rmatch] in Hres.
  - now exists st.
  - destruct (rest st) as [|c s'] eqn:Hrest; [discriminate |].
    destruct (Ascii.eqb _ _); [| discriminate].
    eexists. split; [exact Hres | now apply R_advance].
  - destruct (rest st) as [|c s'] eqn:Hrest; [discriminate |].
    destruct (class_has _ _ _ _); [| discriminate].
    eexists. split; [exact Hres | now apply R_advance].
  - apply IH1 in Hres as (st1 & Hres & HR1).
    apply IH2 in Hres as (st2 & Hres & HR2).
    exists st2. split; [exact Hres | exact (R_trans _ _ _ HR1 HR2)].
  - apply (star_loop_rel _ greedy k) in Hres; [exact Hres |].
    intros st0 k0 res0. apply IH1.
  - apply IH1 in Hres as (st1 & Hres & HR1).
    eexists. split; [exact Hres | now apply R_cap].
  - now apply IH1.
  - destruct (rmatch icase r1 st Some); [discriminate |]. now exists st.
  - destruct (xorb _ _); [| discriminate]. now exists st.
Qed.

End Trace.

Lemma str_app_cons (x : ascii) (a b : string) :
  String x a +:+ b = String x (a +:+ b).
Proof. reflexivity. Qed.

Lemma str_app_assoc (a b c : string) : (a +:+ b) +:+ c = a +:+ (b +:+ c).
Proof.
  induction a as [|x a IH]; [reflexivity |].
  now rewrite !str_app_cons, IH.
Qed.

(** The continuation runs on a suffix of the input. *)
Lemma rmatch_later (icase : bool) (r : regex) (st : mstate)
    (k : mstate -> option mstate) (res : mstate) :
  rmatch icase r st k = Some res ->
  exists st', k st' = Some res /\ later st st'.
Proof.
  apply rmatch_rel.
  - intros st0. now exists EmptyString.
  - intros st1 st2 st3 [p1 H1] [p2 H2]. exists (p1 +:+ p2).
    now rewrite H1, H2, str_app_assoc.
  - intros st0 c s' Hrest. exists (String c EmptyString). now rewrite Hrest.
  - intros st0 st' n v H. exact H.
Qed.

Lemma rmatch_Seq (icase : bool) (r1 r2 : regex) (st : mstate)
    (k : mstate -> option mstate) :
  rmatch icase (Seq r1 r2) st k
  = rmatch icase r1 st (fun st' => rmatch icase r2 st' k).
Proof. reflexivity. Qed.

Lemma rmatch_lit_prefix (t : string) (st : mstate)
    (k : mstate -> option mstate) (res : mstate) :
  rmatch true (lit t) st k = Some res -> prefix_ci t (rest st) = true.
Proof.
  revert st k. induction t as [|a t IH]; intros st k Hres; [reflexivity |].
  cbn [lit] in Hres. rewrite rmatch_Seq in Hres. cbn [rmatch] in Hres.
  destruct (rest st) as [|c s']; [discriminate |]. cbn [prefix_ci].
  destruct (Ascii.eqb _ _); [| discriminate].
  apply IH in Hres. exact Hres.
Qed.

Lemma occurs_ci_later (t pre s : string) :
  prefix_ci t s = true -> occurs_ci t (pre +:+ s) = true.
Proof.
  intros Hprefix. induction pre as [|c pre IH].
  - change (EmptyString +:+ s) with s.
    destruct s; cbn [occurs_ci]; now rewrite Hprefix.
  - rewrite str_app_cons. cbn [occurs_ci]. rewrite IH. apply orb_true_r.
Qed.

Lemma occurs_ci_app (t pre s : string) :
  occurs_ci t s = true -> occurs_ci t (pre +:+ s) = true.
Proof.
  intros Hocc. induction pre as [|c pre IH]; [exact Hocc |].
  rewrite str_app_cons. cbn [occurs_ci]. rewrite IH. apply orb_true_r.
Qed.

(** A selector pattern only matches where the text [class=] follows. *)
Lemma exec_at_selector_class (selector : string) (p : option ascii)
    (s : string) (m : mstate) :
  exec_at true (re_selector selector) p s = Some m ->
  occurs_ci "class=" s = true.
Proof.
  unfold exec_at, re_selector. cbn [seqs]. intros Hres.
  rewrite rmatch_Seq in Hres.
  apply rmatch_later in Hres as (st1 & Hres & [pre1 H1]).
  rewrite rmatch_Seq in Hres.
  apply rmatch_later in Hres as (st2 & Hres & [pre2 H2]).
  rewrite rmatch_Seq in Hres. apply rmatch_lit_prefix in Hres.
  cbn [rest] in H1. rewrite H1, H2, <- str_app_assoc.
  now apply occurs_ci_later.
Qed.

Lemma search_from_selector_class (selector : string) (s : string) :
  forall p m,
    search_from true (re_selector selector) p s = Some m ->
    occurs_ci "class=" s = true.
Proof.
  induction s as [|c s IH]; intros p m Hres; cbn [search_from] in Hres.
  - destruct (exec_at true (re_selector selector) p "") eqn:Hexec;
      [| discriminate].
    exact (exec_at_selector_class _ _ _ _ Hexec).
  - destruct (exec_at true (re_selector selector) p (String c s)) eqn:Hexec.
    + exact (exec_at_selector_class _ _ _ _ Hexec).
    + apply IH in Hres. apply (occurs_ci_app _ (String c EmptyString) s Hres).
Qed.

Lemma first_selector_body_no_class (cleanHtml : string)
    (selectors : list string) :
  occurs_ci "class=" cleanHtml = false ->
  first_selector_body cleanHtml selectors = EmptyString.
Proof.
  intros Hno. induction selectors as [|selector more IH]; [reflexivity |].
  cbn [first_selector_body]. unfold str_match.
  destruct (search_from true (re_selector selector) None cleanHtml) as [m|]
    eqn:Hsearch; [| exact IH].
  apply search_from_selector_class in Hsearch. congruence.
Qed.

(** ** The heuristic extractor, further *)

Lemma heuristic_content_collapse (cleanHtml : string) :
  exists text0, heuristic_content cleanHtml = trim (collapse false text0).
Proof.
  unfold heuristic_content. rewrite replace_all_spaces. eexists. reflexivity.
Qed.

(** X1: whatever the markup, the content the heuristic extractor returns
    is made of words separated by single blanks (every white-space
    character is a blank, none follows another, none stands at either
    end), and the title has no white space at either end. *)
Theorem heuristic_output_tidy (html : string) :
  tidy (content (extractWithTraditionalMethods html)) = true
  /\ trimmed (title (extractWithTraditionalMethods html)) = true.
Proof.
  unfold extractWithTraditionalMethods. cbn [title content]. split.
  - destruct (heuristic_content_collapse (strip_blocks html)) as [t ->].
    apply tidy_trim_collapse.
  - rewrite heuristic_title_cases.
    assert (trimmed (title_tag_text (strip_blocks html)) = true) as Htag.
    { unfold title_tag_text.
      destruct (str_match true re_title _); [apply trim_trimmed | reflexivity]. }
    destruct (is_empty _); [| exact Htag].
    destruct (str_match true re_meta_title _);
      [apply trim_trimmed | reflexivity].
Qed.

Lemma replace_all_no_lt (icase : bool) (r : regex) (by_ s : string) :
  starts_with "<" r = true ->
  has_char "<" s = false ->
  replace_all icase r by_ s = s.
Proof. intros. unfold replace_all. now apply replace_from_no_lt. Qed.

Lemma first_selector_body_no_lt (s : string) (selectors : list string) :
  has_char "<" s = false -> first_selector_body s selectors = EmptyString.
Proof.
  intros Hno. induction selectors as [|selector more IH]; [reflexivity |].
  cbn [first_selector_body]. unfold str_match.
  now rewrite search_from_no_lt by first [reflexivity | exact Hno].
Qed.

(** X2: markup without any [<] is taken as plain text: nothing is
    stripped, the title is "Untitled Article" and the content is the
    whole text with its white space collapsed and trimmed. *)
Theorem plain_text_extraction (html : string) :
  has_char "<" html = false ->
  strip_blocks html = html
  /\ extractWithTraditionalMethods html
     = {| title := "Untitled Article";
          content := trim (collapse false html) |}.
Proof.
  intros Hno.
  assert (strip_blocks html = html) as Hclean.
  { unfold strip_blocks.
    rewrite (replace_all_no_lt true (re_block "script") "" html)
      by first [reflexivity | exact Hno].
    now rewrite (replace_all_no_lt true (re_block "style") "" html)
      by first [reflexivity | exact Hno]. }
  split; [exact Hclean |].
  unfold extractWithTraditionalMethods. rewrite Hclean. f_equal.
  - unfold heuristic_title, title_tag_text, str_match.
    now rewrite !search_from_no_lt by first [reflexivity | exact Hno].
  - unfold heuristic_content. rewrite first_selector_body_no_lt by exact Hno.
    cbn [is_empty]. unfold str_match.
    rewrite (search_from_no_lt true re_body None html eq_refl Hno).
    rewrite (replace_all_no_lt false re_tag " " html eq_refl Hno).
    now rewrite replace_all_spaces.
Qed.

Lemma plain_text_extraction_witness :
  strip_blocks "  a  plain   note " = "  a  plain   note "
  /\ extractWithTraditionalMethods "  a  plain   note "
     = {| title := "Untitled Article";
          content := trim (collapse false "  a  plain   note ") |}.
Proof.
  apply (plain_text_extraction "  a  plain   note "). reflexivity.
Defined.

(** X3: when the cleaned markup nowhere has the text [class=] (in any
    letter case), no content selector is matched, whatever elements the
    markup has, and the content is the text of the body when the body
    pattern matches and of the whole cleaned markup otherwise. *)
Theorem content_without_class (html : string) :
  occurs_ci "class=" (strip_blocks html) = false ->
  first_selector_body (strip_blocks html) contentSelectors = EmptyString
  /\ content (extractWithTraditionalMethods html)
     = trim (collapse false
               (replace_all false re_tag " "
                  match str_match true re_body (strip_blocks html) with
                  | Some bodyMatch => group 1 bodyMatch
                  | None => strip_blocks html
                  end)).
Proof.
  intros Hno.
  pose proof (first_selector_body_no_class _ contentSelectors Hno) as Hsel.
  split; [exact Hsel |].
  unfold extractWithTraditionalMethods. cbn [content].
  unfold heuristic_content. rewrite Hsel. cbn [is_empty].
  now rewrite replace_all_spaces.
Qed.

Lemma content_without_class_witness :
  first_selector_body (strip_blocks article_page) contentSelectors
  = EmptyString
  /\ content (extractWithTraditionalMethods article_page)
     = trim (collapse false
               (replace_all false re_tag " "
                  match str_match true re_body (strip_blocks article_page) with
                  | Some bodyMatch => group 1 bodyMatch
                  | None => strip_blocks article_page
                  end)).
Proof.
  apply (content_without_class article_page). vm_compute. reflexivity.
Defined.

(** X4: in every match of the title, og:title, body and selector patterns
    the first group is set, so reading [m[1]] never meets [undefined]
    and the heuristic extractor cannot throw. *)
Theorem read_groups_defined (s selector : string) (m : mstate) :
  (str_match true re_title s = Some m \/ str_match true re_meta_title s = Some m
   \/ str_match true re_body s = Some m
   \/ str_match true (re_selector selector) s = Some m) ->
  cap_lookup 1 (caps m) = Some (group 1 m).
Proof.
  destruct (patterns_set_group_1 selector) as (Ht & Hm & Hb & Hs).
  intros [H | [H | [H | H]]].
  - exact (str_match_sets_group true 1 _ s m Ht H).
  - exact (str_match_sets_group true 1 _ s m Hm H).
  - exact (str_match_sets_group true 1 _ s m Hb H).
  - exact (str_match_sets_group true 1 _ s m Hs H).
Qed.

Lemma read_groups_defined_witness :
  exists m,
    str_match true re_title "<title> Foo </title>" = Some m
    /\ cap_lookup 1 (caps m) = Some (group 1 m)
    /\ group 1 m = " Foo ".
Proof.
  destruct (str_match true re_title "<title> Foo </title>") as [m|] eqn:Hm;
    [| vm_compute in Hm; discriminate].
  exists m. split; [reflexivity |]. split.
  - apply (read_groups_defined "<title> Foo </title>" "article" m).
    left. exact Hm.
  - vm_compute in Hm. injection Hm as <-. reflexivity.
Defined.

Lemma str_take_length (n : nat) (s : string) :
  String.length (str_take n s) <= n.
Proof.
  revert s. induction n as [|n IH]; intros [|c s]; cbn; try lia.
  specialize (IH s). lia.
Qed.

Lemma single_blanks_take (n : nat) (s : string) :
  forall b, single_blanks b s = true -> single_blanks b (str_take n s) = true.
Proof.
  revert s. induction n as [|n IH]; intros [|c s] b; cbn [str_take single_blanks];
    try reflexivity.
  destruct (is_space c).
  - intros H. apply andb_true_iff in H as [-> H]. now rewrite IH.
  - apply IH.
Qed.

(** X5: the text the model-based extractor sends to the model is at most
    8000 characters long, starts with no white space, and has only
    single blanks between its words. *)
Theorem ai_clean_bounded (html : string) :
  String.length (ai_clean html) <= 8000
  /\ single_blanks true (ai_clean html) = true.
Proof.
  unfold ai_clean. split; [apply str_take_length |].
  apply single_blanks_take. rewrite replace_all_spaces.
  pose proof (tidy_trim_collapse
                (replace_all false re_tag " " (strip_blocks html))) as H.
  unfold tidy in H. now apply andb_true_iff in H as [H _].
Qed.

(** ** The model-based extractor and the coordinator, further *)

Lemma truthy_or_default (x : option json) (d : json) :
  truthy d = true -> truthy (or_default x d) = true.
Proof.
  intros Hd. destruct x as [v|]; cbn; [| exact Hd].
  destruct (truthy v) eqn:Hv; [exact Hv | exact Hd].
Qed.

Lemma extractWithAI_truthy (w : world) (html url : string) (r : extracted) :
  extractWithAI w html url = Ok r ->
  truthy (x_title r) = true /\ truthy (x_content r) = true.
Proof.
  rewrite extractWithAI_unfold.
  destruct (chat_completion w (ai_prompt html url)) as [mc|];
    cbn [mbind result_bind]; [| discriminate].
  destruct (JSON_parse w (reply_source mc)) as [parsed|];
    cbn [mbind result_bind]; [| discriminate].
  destruct (get_prop parsed "title") as [t|];
    cbn [mbind result_bind]; [| discriminate].
  destruct (get_prop parsed "content") as [c|];
    cbn [mbind result_bind mret result_ret]; [| discriminate].
  intros [= <-]. cbn [x_title x_content].
  split; apply truthy_or_default; reflexivity.
Qed.

(** X6: whatever the heuristic extractor and the model produce, a result
    of the coordinator never has an empty (falsy) title or content: the
    heuristic result passes the gate only with a non-empty title and 200
    characters of content, and the model-based extractor replaces every
    missing or falsy field. *)
Theorem extractArticleContent_nonempty (w : world) (html url : string)
    (r : extracted) :
  extractArticleContent w html url = Ok r ->
  truthy (x_title r) = true /\ truthy (x_content r) = true.
Proof.
  unfold extractArticleContent.
  set (h := extractWithTraditionalMethods html).
  destruct (is_empty (title h)) eqn:Htitle; cbn [orb].
  - apply extractWithAI_truthy.
  - destruct (Nat.ltb_spec (String.length (content h)) 200) as [Hlt | Hge].
    + apply extractWithAI_truthy.
    + intros [= <-]. cbn [of_extraction x_title x_content truthy].
      rewrite Htitle. split; [reflexivity |].
      destruct (content h); [cbn in Hge; lia | reflexivity].
Qed.

Lemma extractArticleContent_nonempty_witness :
  truthy (JStr "Untitled Article") = true
  /\ truthy (JStr "No content extracted") = true.
Proof.
  apply (extractArticleContent_nonempty quiet_world short_page "u"
           {| x_title := JStr "Untitled Article";
              x_content := JStr "No content extracted" |}).
  vm_compute. reflexivity.
Defined.

(** X7: the model-based extractor fails in exactly three ways: the call
    to the model is rejected, the answer does not parse, or it parses to
    [null] (reading a field of it then throws); the exception is the one
    of that step. *)
Theorem extractWithAI_failures (w : world) (html url : string) (e : exn) :
  extractWithAI w html url = Raise e <->
  chat_completion w (ai_prompt html url) = Raise e
  \/ exists message_content,
       chat_completion w (ai_prompt html url) = Ok message_content
       /\ (JSON_parse w (reply_source message_content) = Raise e
           \/ JSON_parse w (reply_source message_content) = Ok JNull
              /\ e = null_read "title").
Proof.
  rewrite extractWithAI_unfold. split.
  - destruct (chat_completion w (ai_prompt html url)) as [mc | e0] eqn:Hchat;
      cbn [mbind result_bind]; [| intros [= <-]; now left].
    intros H. right. exists mc. split; [reflexivity |].
    destruct (JSON_parse w (reply_source mc)) as [parsed | e1];
      cbn [mbind result_bind] in H; [| injection H as <-; now left].
    right. destruct parsed;
      cbn [get_prop mbind result_bind mret result_ret] in H;
      try discriminate.
    injection H as <-. now split.
  - intros [H | (mc & Hchat & [Hparse | [Hparse ->]])].
    + now rewrite H.
    + rewrite Hchat. cbn [mbind result_bind]. now rewrite Hparse.
    + rewrite Hchat. cbn [mbind result_bind]. now rewrite Hparse.
Qed.

Lemma extractWithAI_failures_witness :
  extractWithAI
    (sample_world (page_ok short_page) JNull StreamDone) short_page "u"
  = Raise (null_read "title").
Proof.
  apply (proj2 (extractWithAI_failures
                  (sample_world (page_ok short_page) JNull StreamDone)
                  short_page "u" (null_read "title"))).
  right. exists None. split; [reflexivity |]. right. split; reflexivity.
Defined.

(** ** The speech synthesizer, further *)

Lemma read_chunks_broken (delivered chunks : list chunk) (e : exn) :
  read_chunks (broken_stream delivered e) chunks = Raise e.
Proof.
  revert chunks. induction delivered as [|value more IH]; intros chunks;
    cbn; [reflexivity | apply IH].
Qed.

(** X8: when the provider's stream fails after any number of chunks, the
    synthesizer fails with the exception of the stream and returns none
    of the audio read so far. *)
Theorem generateAudio_broken_stream (w : world) (text0 apiKey : string)
    (chunks : list chunk) (e : exn) :
  ELEVENLABS_API_KEY w = Some apiKey ->
  apiKey ≠ EmptyString ->
  textToSpeech_convert w text0 = Ok (broken_stream chunks e) ->
  generateAudio w text0 = Raise e.
Proof.
  intros Hkey Hnonempty Hstream. unfold generateAudio.
  rewrite Hkey. destruct apiKey as [|c k]; [congruence |]. cbn [is_empty].
  rewrite Hstream. cbn [mbind result_bind].
  now rewrite read_chunks_broken.
Qed.

Lemma generateAudio_broken_stream_witness :
  generateAudio
    (sample_world page_404 JNull
       (broken_stream [[x01; x02]; [x03]] (JsError "stream closed")))
    "some text"
  = Raise (JsError "stream closed").
Proof.
  apply (generateAudio_broken_stream _ "some text" "key" [[x01; x02]; [x03]]);
    [reflexivity | discriminate | reflexivity].
Defined.

(** ** The orchestrator, further *)

(** X9: a run in which every step succeeds (the record exists, the page
    is fetched, the extraction yields strings, the audio is synthesized
    and stored) returns normally and leaves the record completed, with
    the extracted title and content and the reference of the stored
    audio; the URL and the error message field are as before. *)
Theorem processArticle_success (w : world) (articleId : N) (s : system)
    (a : Article.t) (page : response) (html t c : string) (audio : chunk)
    (audioFileId : N) :
  db s !! articleId = Some a ->
  fetch w (Article.url a) = Ok page ->
  ok page = true ->
  text page = Ok html ->
  extractArticleContent w html (Article.url a)
  = Ok {| x_title := JStr t; x_content := JStr c |} ->
  generateAudio w c = Ok audio ->
  storage_store w audio = Ok audioFileId ->
  processArticle w articleId s
  = (Ok tt,
     System (<[articleId :=
                 {| Article.url := Article.url a; Article.title := Some t;
                    Article.content := Some c;
                    Article.audioFileId := Some audioFileId;
                    Article.status := completed;
                    Article.errorMessage := Article.errorMessage a |}]> (db s))
            (scheduled s)).
Proof.
  intros Ha Hfetch Hok Htext Hextract Haudio Hstore.
  unfold_action. unfold validate_string.
  rewrite Ha, Hfetch, Hok. cbn [negb]. rewrite Htext, Hextract.
  cbn [x_title x_content db scheduled]. rewrite Ha. cbn [db scheduled].
  rewrite Haudio, Hstore. cbn [db scheduled].
  rewrite lookup_insert_eq, insert_insert_eq. reflexivity.
Qed.

Lemma processArticle_success_witness :
  processArticle quiet_world 0 one_article
  = (Ok tt,
     System (<[0%N :=
                 {| Article.url := "https://example.com/a";
                    Article.title := Some "Foo";
                    Article.content := Some ("Foo " +:+ long_text);
                    Article.audioFileId := Some 7%N;
                    Article.status := completed;
                    Article.errorMessage := None |}]> (db one_article))
            (scheduled one_article)).
Proof.
  apply (processArticle_success quiet_world 0 one_article
           (new_article "https://example.com/a") (page_ok article_page)
           article_page "Foo" ("Foo " +:+ long_text) [x01] 7);
    vm_compute; reflexivity.
Defined.

(** X10: when the extraction has yielded strings and the synthesis or the
    storing of the audio then fails, the run returns normally and leaves
    the record in state [error] with the message of that failure, and
    with the extracted title and content already written. *)
Theorem processArticle_synthesis_failure (w : world) (articleId : N)
    (s : system) (a : Article.t) (page : response) (html t c : string)
    (e : exn) :
  db s !! articleId = Some a ->
  fetch w (Article.url a) = Ok page ->
  ok page = true ->
  text page = Ok html ->
  extractArticleContent w html (Article.url a)
  = Ok {| x_title := JStr t; x_content := JStr c |} ->
  (generateAudio w c = Raise e
   \/ exists audio, generateAudio w c = Ok audio
                    /\ storage_store w audio = Raise e) ->
  processArticle w articleId s
  = (Ok tt,
     System (<[articleId :=
                 {| Article.url := Article.url a; Article.title := Some t;
                    Article.content := Some c;
                    Article.audioFileId := Article.audioFileId a;
                    Article.status := error;
                    Article.errorMessage := Some (error_text e) |}]> (db s))
            (scheduled s)).
Proof.
  intros Ha Hfetch Hok Htext Hextract Hfail.
  unfold_action. unfold validate_string.
  rewrite Ha, Hfetch, Hok. cbn [negb]. rewrite Htext, Hextract.
  cbn [x_title x_content db scheduled]. rewrite Ha. cbn [db scheduled].
  destruct Hfail as [Haudio | (audio & Haudio & Hstore)].
  - rewrite Haudio. cbn [db scheduled].
    rewrite lookup_insert_eq, insert_insert_eq. reflexivity.
  - rewrite Haudio, Hstore. cbn [db scheduled].
    rewrite lookup_insert_eq, insert_insert_eq. reflexivity.
Qed.

Lemma processArticle_synthesis_failure_witness :
  processArticle keyless_world 0 one_article
  = (Ok tt,
     System (<[0%N :=
                 {| Article.url := "https://example.com/a";
                    Article.title := Some "Foo";
                    Article.content := Some ("Foo " +:+ long_text);
                    Article.audioFileId := None;
                    Article.status := error;
                    Article.errorMessage :=
                      Some "ElevenLabs API key not configured" |}]>
               (db one_article))
            (scheduled one_article)).
Proof.
  apply (processArticle_synthesis_failure keyless_world 0 one_article
           (new_article "https://example.com/a") (page_ok article_page)
           article_page "Foo" ("Foo " +:+ long_text)
           (JsError "ElevenLabs API key not configured"));
    try (vm_compute; reflexivity).
  left. vm_compute. reflexivity.
Defined.

(** X11: when the extraction yields a title or a content that is no
    string (the model may answer with any value), the call of
    [updateArticle] is rejected by its argument validator: the run
    returns normally, writes neither title nor content, and leaves the
    record in state [error] with the validator's message. *)
Theorem processArticle_rejects_non_string (w : world) (articleId : N)
    (s : system) (a : Article.t) (page : response) (html : string)
    (x : extracted) :
  db s !! articleId = Some a ->
  fetch w (Article.url a) = Ok page ->
  ok page = true ->
  text page = Ok html ->
  extractArticleContent w html (Article.url a) = Ok x ->
  ((forall t, x_title x ≠ JStr t) \/ (forall c, x_content x ≠ JStr c)) ->
  processArticle w articleId s
  = (Ok tt,
     System (<[articleId := with_error (error_text (validation_error w)) a]>
               (db s))
            (scheduled s)).
Proof.
  intros Ha Hfetch Hok Htext Hextract Hodd.
  unfold_action. unfold validate_string.
  rewrite Ha, Hfetch, Hok. cbn [negb]. rewrite Htext, Hextract.
  destruct Hodd as [Hodd | Hodd].
  - destruct (x_title x) as [| | | t | |] eqn:Ht;
      try (cbn [db scheduled]; rewrite Ha; reflexivity).
    now destruct (Hodd t).
  - destruct (x_title x) as [| | | t | |] eqn:Ht;
      try (cbn [db scheduled]; rewrite Ha; reflexivity).
    destruct (x_content x) as [| | | c | |] eqn:Hc;
      try (cbn [db scheduled]; rewrite Ha; reflexivity).
    now destruct (Hodd c).
Qed.

Lemma processArticle_rejects_non_string_witness :
  processArticle odd_reply_world 0 one_article
  = (Ok tt,
     System (<[0%N := with_error "ArgumentValidationError"
                        (new_article "https://example.com/a")]>
               (db one_article))
            (scheduled one_article)).
Proof.
  apply (processArticle_rejects_non_string odd_reply_world 0 one_article
           (new_article "https://example.com/a") (page_ok short_page)
           short_page
           {| x_title := JBool true;
              x_content := JStr "No content extracted" |});
    try (vm_compute; reflexivity).
  left. intros t. discriminate.
Defined.

(** ** What a run leaves alone *)

Lemma same_but_refl (i : N) (s s' : system) :
  scheduled s' = scheduled s -> db s' = db s -> same_but i s s'.
Proof.
  intros Hsched Hdb. unfold same_but. rewrite Hsched, Hdb.
  repeat split; try tauto. intros a a' Ha Ha'. congruence.
Qed.

Lemma same_but_insert (i : N) (s s' : system) (a a' : Article.t) :
  scheduled s' = scheduled s ->
  db s !! i = Some a ->
  Article.url a' = Article.url a ->
  db s' = <[i := a']> (db s) ->
  same_but i s s'.
Proof.
  intros Hsched Ha Hurl Hdb. unfold same_but. rewrite Hsched, Hdb.
  repeat split.
  - intros j Hj. now rewrite lookup_insert_ne.
  - rewrite lookup_insert. case_decide; [subst; now rewrite Ha | tauto].
  - rewrite lookup_insert. case_decide; [subst; now rewrite Ha | tauto].
  - intros b b' Hb Hb'. rewrite lookup_insert_eq in Hb'. congruence.
Qed.

Lemma same_but_trans (i : N) (s1 s2 s3 : system) :
  same_but i s1 s2 -> same_but i s2 s3 -> same_but i s1 s3.
Proof.
  intros (Hs1 & Ho1 & Hd1 & Hu1) (Hs2 & Ho2 & Hd2 & Hu2). repeat split.
  - congruence.
  - intros j Hj. rewrite Ho2, Ho1 by exact Hj. reflexivity.
  - intros H. now apply Hd1, Hd2.
  - intros H. now apply Hd2, Hd1.
  - intros a a3 Ha Ha3.
    destruct (proj2 (Hd1 i) (ex_intro _ a Ha)) as [a2 Ha2].
    rewrite (Hu2 a2 a3 Ha2 Ha3). exact (Hu1 a a2 Ha Ha2).
Qed.

Lemma run_step_scheduled (w : world) (r : run) (s s' : system) (o : outcome) :
  run_step w r s = (o, s') ->
  scheduled s' = scheduled s
  /\ (forall r', o = Continue r' -> run_article r' = run_article r).
Proof.
  intros Hstep. destruct r as [i | i x | i f | i e]; unfold run_step in Hstep;
    unfold_action;
    repeat (case_match; simplify_eq; cbn [db scheduled fst snd] in * );
    (split; [reflexivity | intros r' [= <-]; reflexivity])
    || (split; [reflexivity | intros r' Hr'; discriminate]).
Qed.

Lemma run_step_same_but (w : world) (r : run) (s s' : system) (o : outcome) :
  run_step w r s = (o, s') -> same_but (run_article r) s s'.
Proof.
  intros Hstep.
  destruct (run_step_scheduled w r s s' o Hstep) as [Hsched _].
  destruct (run_step_effect w r s s' o Hstep)
    as [o s' Hdb _ | a t c o s' Ha Hdb _ | a i f s' -> Ha Hdb | a m s' Ha Hdb].
  - now apply same_but_refl.
  - now apply (same_but_insert _ s s' a (with_text t c a)).
  - now apply (same_but_insert _ s s' a (with_audio f a)).
  - now apply (same_but_insert _ s s' a (with_error m a)).
Qed.

Lemma run_steps_same_but (w : world) (n : nat) :
  forall r s o s',
    run_steps w n r s = (o, s') -> same_but (run_article r) s s'.
Proof.
  induction n as [|n IH]; intros r s o s' Hsteps; cbn [run_steps] in Hsteps.
  - injection Hsteps as <- <-. now apply same_but_refl.
  - destruct (run_step w r s) as [o1 s1] eqn:Hstep.
    pose proof (run_step_same_but w r s s1 o1 Hstep) as H1.
    destruct (run_step_scheduled w r s s1 o1 Hstep) as [_ Hart].
    destruct o1 as [r1 | | e1].
    + apply IH in Hsteps. rewrite (Hart r1 eq_refl) in Hsteps.
      exact (same_but_trans _ _ _ _ H1 Hsteps).
    + now injection Hsteps as <- <-.
    + now injection Hsteps as <- <-.
Qed.

(** X12: a run, however it ends, leaves the scheduler's list and every
    other record as they were, adds and removes no record, and does not
    change the URL of its own record. *)
Theorem processArticle_frame (w : world) (articleId : N) (s s' : system)
    (r : result unit) :
  processArticle w articleId s = (r, s') ->
  scheduled s' = scheduled s
  /\ (forall j, j ≠ articleId -> db s' !! j = db s !! j)
  /\ (forall j, is_Some (db s' !! j) <-> is_Some (db s !! j))
  /\ (forall a a', db s !! articleId = Some a -> db s' !! articleId = Some a' ->
                   Article.url a' = Article.url a).
Proof.
  intros Hrun.
  pose proof (run_steps_processArticle w articleId s) as Hsteps.
  rewrite Hrun in Hsteps.
  destruct r as [[] | e];
    exact (run_steps_same_but w 4 (AtStart articleId) s _ s' Hsteps).
Qed.

Lemma processArticle_frame_witness :
  scheduled (snd (processArticle quiet_world 0 race_3)) = scheduled race_3
  /\ (forall j, j ≠ 0%N ->
        db (snd (processArticle quiet_world 0 race_3)) !! j = db race_3 !! j)
  /\ (forall j, is_Some (db (snd (processArticle quiet_world 0 race_3)) !! j)
                <-> is_Some (db race_3 !! j))
  /\ (forall a a',
        db race_3 !! 0%N = Some a ->
        db (snd (processArticle quiet_world 0 race_3)) !! 0%N = Some a' ->
        Article.url a' = Article.url a).
Proof.
  destruct (processArticle quiet_world 0 race_3) as [r s'] eqn:Hrun.
  exact (processArticle_frame quiet_world 0 race_3 s' r Hrun).
Defined.

(** ** What holds in every state of the system *)

Lemma create_Ok_inv (url : string) (s s1 : system) (id : N) :
  create url s = Ok (id, s1) ->
  (forall j b, db s !! j = Some b -> Article.url b ≠ url)
  /\ db s !! id = None
  /\ s1 = System (<[id := new_article url]> (db s))
                 (scheduled s ++ [AtStart id]).
Proof.
  unfold create, mbind, mutation_bind, db_first_with_url.
  destruct (head (map_to_list
              (filter (fun kv : N * Article.t => Article.url kv.2 = url) (db s))))
    as [[j b]|] eqn:Hhead; cbn; [discriminate |].
  intros [= <- <-]. split; [| split; [| reflexivity]].
  - apply head_None in Hhead.
    apply (proj1 (map_to_list_empty_iff _)) in Hhead.
    apply (proj1 (map_empty_filter _ _)) in Hhead.
    intros j b Hb. exact (Hhead j b Hb).
  - apply not_elem_of_dom, is_fresh.
Qed.

Lemma urls_unique_update (s : system) (i : N) (a a' : Article.t)
    (rs : list run) :
  db s !! i = Some a ->
  Article.url a' = Article.url a ->
  urls_unique s ->
  urls_unique (System (<[i := a']> (db s)) rs).
Proof.
  intros Ha Hurl Huniq j1 j2 b1 b2. cbn [db]. rewrite !lookup_insert.
  repeat case_decide; subst; intros H1 H2 Heq; simplify_eq; try reflexivity.
  - symmetry. apply (Huniq j2 j1 b2 a H2 Ha). congruence.
  - apply (Huniq j1 j2 b1 a H1 Ha). congruence.
  - exact (Huniq j1 j2 b1 b2 H1 H2 Heq).
Qed.

Lemma runs_have_records_insert (s : system) (i : N) (a : Article.t)
    (rs : list run) :
  Forall (fun r => is_Some (db s !! run_article r)) rs ->
  Forall (fun r => is_Some (<[i := a]> (db s) !! run_article r)) rs.
Proof.
  intros Hrs. eapply Forall_impl; [exact Hrs |].
  intros r Hr. cbn beta in *. rewrite lookup_insert.
  case_decide; [eauto | exact Hr].
Qed.

Lemma step_urls_unique (s s' : system) :
  step any_time s s' -> urls_unique s -> urls_unique s'.
Proof.
  intros Hstep Hs.
  destruct Hstep as [url s | articleId s _ | w r before after s s' o Hr Hrun].
  - unfold commit. destruct (create url s) as [[id s1]|e] eqn:Hcreate;
      [| exact Hs].
    apply create_Ok_inv in Hcreate as (Hfresh & Hnone & ->).
    intros j1 j2 b1 b2. cbn [db]. rewrite !lookup_insert.
    repeat case_decide; subst; intros H1 H2 Heq; simplify_eq;
      try reflexivity.
    + cbn in Heq. now destruct (Hfresh j2 b2 H2).
    + cbn in Heq. now destruct (Hfresh j1 b1 H1).
    + exact (Hs j1 j2 b1 b2 H1 H2 Heq).
  - destruct (commit_retry_cases articleId s) as [-> | (a & Ha & ->)];
      [exact Hs |].
    now apply (urls_unique_update s articleId a).
  - destruct (run_step_effect w r s s' o Hrun)
      as [o s' Hdb _ | a t c o s' Ha Hdb _ | a i f s' -> Ha Hdb | a m s' Ha Hdb].
    + intros j1 j2 b1 b2. cbn [db]. rewrite Hdb. apply Hs.
    + unfold urls_unique. cbn [db]. rewrite Hdb.
      now apply (urls_unique_update s _ a _ []).
    + unfold urls_unique. cbn [db]. rewrite Hdb.
      now apply (urls_unique_update s _ a _ []).
    + unfold urls_unique. cbn [db]. rewrite Hdb.
      now apply (urls_unique_update s _ a _ []).
Qed.

Lemma step_runs_have_records (s s' : system) :
  step any_time s s' -> runs_have_records s -> runs_have_records s'.
Proof.
  unfold runs_have_records. intros Hstep Hs.
  destruct Hstep as [url s | articleId s _ | w r before after s s' o Hr Hrun].
  - destruct (commit_create_cases url s) as [-> | (id & _ & ->)]; [exact Hs |].
    cbn [db scheduled]. apply Forall_app. split.
    + now apply runs_have_records_insert.
    + constructor; [| constructor]. cbn. rewrite lookup_insert_eq. eauto.
  - destruct (commit_retry_cases articleId s) as [-> | (a & _ & ->)];
      [exact Hs |].
    cbn [db scheduled]. apply Forall_app. split.
    + now apply runs_have_records_insert.
    + constructor; [| constructor]. cbn. rewrite lookup_insert_eq. eauto.
  - rewrite Hr in Hs. apply Forall_app in Hs as [Hbefore Hrest].
    apply Forall_cons in Hrest as [Hrun_r Hafter].
    destruct (run_step_same_but w r s s' o Hrun) as (_ & _ & Hdom & _).
    destruct (run_step_scheduled w r s s' o Hrun) as [_ Hart].
    cbn [db scheduled]. apply replace_run_Forall.
    + eapply Forall_impl; [exact Hbefore |]. intros r0 H0. now apply Hdom.
    + eapply Forall_impl; [exact Hafter |]. intros r0 H0. now apply Hdom.
    + intros r' ->. rewrite (Hart r' eq_refl). now apply Hdom.
Qed.

Lemma reachable_invariant (P : system -> Prop) :
  P initial ->
  (forall s s', step any_time s s' -> P s -> P s') ->
  forall s, reachable any_time s -> P s.
Proof.
  intros Hinit Hstep s Hreach.
  apply (rtc_ind_r (R := step any_time) P initial);
    [exact Hinit | | exact Hreach].
  intros s1 s2 _ H12 IH. exact (Hstep s1 s2 H12 IH).
Qed.

(** X13: in every state the system can reach (submissions, retries and
    runs in any interleaving) no two records hold the same URL. *)
Theorem reachable_urls_unique (s : system) :
  reachable any_time s -> urls_unique s.
Proof.
  apply reachable_invariant; [| exact step_urls_unique].
  intros i j a b Ha. cbn in Ha. rewrite lookup_empty in Ha. discriminate.
Qed.

Lemma pair_reachable : reachable any_time pair_5.
Proof.
  assert (step any_time initial pair_1) as H1 by apply step_create.
  assert (step any_time pair_1 pair_2) as H2 by apply step_create.
  assert (step any_time pair_2 pair_3) as H3
    by (apply step_advance; vm_compute; reflexivity).
  assert (step any_time pair_3 pair_4) as H4
    by (apply step_advance; vm_compute; reflexivity).
  assert (step any_time pair_4 pair_5) as H5
    by (apply step_retry; exact I).
  unfold reachable.
  eapply rtc_l; [exact H1 |]. eapply rtc_l; [exact H2 |].
  eapply rtc_l; [exact H3 |]. eapply rtc_l; [exact H4 |].
  apply rtc_once. exact H5.
Qed.

Lemma reachable_urls_unique_witness :
  (Article.url <$> db pair_5 !! 0%N = Some "https://example.com/a"
   /\ Article.url <$> db pair_5 !! 1%N = Some "https://example.com/b")
  /\ urls_unique pair_5.
Proof.
  split.
  - split; vm_compute; reflexivity.
  - apply (reachable_urls_unique pair_5). exact pair_reachable.
Defined.

Lemma reachable_runs_have_records (s : system) :
  reachable any_time s -> runs_have_records s.
Proof.
  apply reachable_invariant; [| exact step_runs_have_records].
  constructor.
Qed.

Lemma run_step_escapes_only_missing (w : world) (r : run) (s s' : system)
    (e : exn) :
  run_step w r s = (Escaped e, s') -> db s !! run_article r = None.
Proof.
  intros Hstep. destruct r as [i | i x | i f | i e0]; unfold run_step in Hstep;
    unfold_action;
    repeat (case_match; simplify_eq; cbn [db scheduled fst snd] in * );
    cbn [run_article]; assumption.
Qed.

(** X14: in every state the system can reach, every run the scheduler
    holds is for an article that has a record, and so no piece of any
    run throws out of the orchestrator, whatever the services answer. *)
Theorem reachable_runs_never_escape (s : system) :
  reachable any_time s ->
  runs_have_records s
  /\ forall w r o s',
       r ∈ scheduled s -> run_step w r s = (o, s') ->
       forall e, o ≠ Escaped e.
Proof.
  intros Hreach. pose proof (reachable_runs_have_records s Hreach) as Hruns.
  split; [exact Hruns |].
  intros w r o s' Hin Hstep e ->.
  apply run_step_escapes_only_missing in Hstep.
  unfold runs_have_records in Hruns. rewrite Forall_forall in Hruns.
  destruct (Hruns r Hin) as [a Ha]. congruence.
Qed.

Lemma reachable_runs_never_escape_witness :
  runs_have_records race_5
  /\ forall w r o s',
       r ∈ scheduled race_5 -> run_step w r race_5 = (o, s') ->
       forall e, o ≠ Escaped e.
Proof. apply (reachable_runs_never_escape race_5). exact race_reachable. Defined.

Lemma step_url_taken (url : string) (s s' : system) :
  step any_time s s' -> url_taken url s -> url_taken url s'.
Proof.
  intros Hstep (i & a & Ha & Hurl).
  destruct Hstep as [url' s | articleId s _ | w r before after s s' o Hr Hrun].
  - destruct (commit_create_cases url' s) as [-> | (id & Hid & ->)];
      [now exists i, a |].
    exists i, a. split; [| exact Hurl]. cbn [db].
    rewrite lookup_insert_ne; [exact Ha | congruence].
  - destruct (commit_retry_cases articleId s) as [-> | (b & Hb & ->)];
      [now exists i, a |].
    destruct (decide (articleId = i)) as [-> | Hne].
    + exists i, (reset_article b). cbn [db]. rewrite lookup_insert_eq.
      split; [reflexivity |]. cbn. congruence.
    + exists i, a. cbn [db]. now rewrite lookup_insert_ne.
  - destruct (run_step_same_but w r s s' o Hrun) as (_ & Hother & Hdom & Hsame).
    destruct (decide (i = run_article r)) as [-> | Hne].
    + destruct (proj2 (Hdom (run_article r)) (ex_intro _ a Ha)) as [a' Ha'].
      exists (run_article r), a'. split; [exact Ha' |].
      rewrite (Hsame a a' Ha Ha'). exact Hurl.
    + exists i, a. split; [| exact Hurl]. cbn [db]. now rewrite Hother.
Qed.

(** X15: a URL that was submitted stays taken: after a successful
    submission, whatever submissions, retries and runs follow, submitting
    the same URL again is rejected as a duplicate. *)
Theorem create_then_always_duplicate (url : string) (s s1 s2 : system)
    (id : N) :
  create url s = Ok (id, s1) ->
  rtc (step any_time) s1 s2 ->
  create url s2 = Raise (JsError "Article already exists").
Proof.
  intros Hcreate Hsteps.
  assert (url_taken url s2) as (j & b & Hb & Hurl).
  { apply (rtc_ind_r (R := step any_time) (url_taken url) s1);
      [| | exact Hsteps].
    - apply create_Ok_inv in Hcreate as (_ & _ & ->).
      exists id, (new_article url). cbn [db]. now rewrite lookup_insert_eq.
    - intros sa sb _ Hstep IH. exact (step_url_taken url sa sb Hstep IH). }
  exact (create_duplicate url s2 j b Hb Hurl).
Qed.

Lemma create_then_always_duplicate_witness :
  create "https://example.com/a" race_5
  = Raise (JsError "Article already exists").
Proof.
  apply (create_then_always_duplicate "https://example.com/a" initial race_1
           race_5 0).
  - reflexivity.
  - assert (step any_time race_1 race_2) as H2
      by (apply step_advance; reflexivity).
    assert (step any_time race_2 race_3) as H3
      by (apply step_advance; vm_compute; reflexivity).
    assert (step any_time race_3 race_4) as H4
      by (apply step_retry; exact I).
    assert (step any_time race_4 race_5) as H5
      by (apply step_advance; vm_compute; reflexivity).
    eapply rtc_l; [exact H2 |]. eapply rtc_l; [exact H3 |].
    eapply rtc_l; [exact H4 |]. apply rtc_once. exact H5.
Defined.

(** X16: retrying twice in a row leaves the record as one retry does and
    schedules two runs: the second retry changes nothing in the table
    and is not merged with the first. *)
Theorem retry_twice (articleId : N) (s s1 : system) :
  retry articleId s = Ok (articleId, s1) ->
  retry articleId s1
  = Ok (articleId,
        System (db s1) (scheduled s ++ [AtStart articleId; AtStart articleId])).
Proof.
  intros Hretry. destruct (db s !! articleId) as [a|] eqn:Ha.
  - rewrite (retry_existing articleId s a Ha) in Hretry.
    injection Hretry as <-.
    rewrite (retry_existing _ _ (reset_article a)) by apply lookup_insert_eq.
    cbn [db scheduled]. rewrite insert_insert_eq, <- app_assoc. reflexivity.
  - rewrite (retry_missing articleId s Ha) in Hretry. discriminate.
Qed.

Lemma retry_twice_witness :
  retry 0 race_4
  = Ok (0%N, System (db race_4) (scheduled race_3 ++ [AtStart 0; AtStart 0])).
Proof.
  apply (retry_twice 0 race_3 race_4). vm_compute. reflexivity.
Defined.

(** ** Tags: [replace(/<[^>]+>/g, ' ')] *)

Lemma rmatch_not_gt (st : mstate) (k : mstate -> option mstate) :
  rmatch false not_gt st k =
  match rest st with
  | String c s' => if Ascii.eqb c ">" then None else k (advance st c s')
  | EmptyString => None
  end.
Proof.
  unfold not_gt. cbn [rmatch]. destruct (rest st) as [|c s']; [reflexivity |].
  unfold class_has. cbn [existsb item_has canon andb orb].
  rewrite orb_false_r, (Ascii.eqb_sym ">" c).
  now destruct (Ascii.eqb c ">").
Qed.

Lemma rmatch_gt_end (st : mstate) :
  rmatch false (Seq (Chr ">") Eps) st Some =
  match rest st with
  | String c s' => if Ascii.eqb c ">" then Some (advance st c s') else None
  | EmptyString => None
  end.
Proof.
  cbn [rmatch canon andb]. now destruct (rest st).
Qed.

(** The greedy run of [[^>]] followed by [>] ends after the first [>]. *)
Lemma not_gt_loop (fuel : nat) (st : mstate) :
  String.length (rest st) < fuel ->
  match after_gt (rest st) with
  | Some r =>
      exists st',
        star_loop (rmatch false not_gt) true
          (fun st0 => rmatch false (Seq (Chr ">") Eps) st0 Some) fuel st
        = Some st' /\ rest st' = r
  | None =>
      star_loop (rmatch false not_gt) true
        (fun st0 => rmatch false (Seq (Chr ">") Eps) st0 Some) fuel st
      = None
  end.
Proof.
  revert st. induction fuel as [|fuel IH]; intros st Hfuel; [lia |].
  cbn [star_loop]. rewrite rmatch_not_gt, rmatch_gt_end.
  destruct st as [p s caps0]. cbn [rest] in *.
  destruct s as [|c s']; [reflexivity |]. cbn [after_gt].
  destruct (Ascii.eqb c ">") eqn:Hc.
  - cbn. eexists. split; reflexivity.
  - unfold advance. cbn [rest caps String.length].
    destruct (Nat.eqb_spec (String.length s') (S (String.length s')));
      [lia |].
    specialize (IH (MState (Some c) s' caps0)). cbn [rest] in IH.
    destruct (after_gt s') as [r|].
    + destruct IH as (st' & Hloop & Hrest); [cbn in Hfuel; lia |].
      rewrite Hloop. cbn. now exists st'.
    + rewrite IH by (cbn in Hfuel; lia). reflexivity.
Qed.

Lemma rmatch_chr (a : ascii) (st : mstate) (k : mstate -> option mstate) :
  rmatch false (Chr a) st k =
  match rest st with
  | String c s' => if Ascii.eqb c a then k (advance st c s') else None
  | EmptyString => None
  end.
Proof. reflexivity. Qed.

Lemma rmatch_Star_loop (icase greedy : bool) (r : regex) (st : mstate)
    (k : mstate -> option mstate) :
  rmatch icase (Star greedy r) st k
  = star_loop (rmatch icase r) greedy k (S (String.length (rest st))) st.
Proof. reflexivity. Qed.

Lemma exec_at_tag (p : option ascii) (s : string) :
  match tag_end s with
  | Some r => exists st, exec_at false re_tag p s = Some st /\ rest st = r
  | None => exec_at false re_tag p s = None
  end.
Proof.
  unfold exec_at, re_tag, Plus. cbn [seqs].
  rewrite rmatch_Seq, rmatch_chr. cbn [rest].
  destruct s as [|c s']; [reflexivity |]. cbn [tag_end].
  destruct (Ascii.eqb c "<") eqn:Hc; cbn [andb]; [| now destruct s'].
  rewrite !rmatch_Seq, rmatch_not_gt. unfold advance. cbn [rest caps].
  destruct s' as [|c1 s'']; [reflexivity |].
  destruct (Ascii.eqb c1 ">"); cbn [negb]; [reflexivity |].
  rewrite rmatch_Star_loop.
  apply (not_gt_loop _ (MState (Some c1) s'' [])).
  cbn. lia.
Qed.

Lemma str_app_length (a b : string) :
  String.length (a +:+ b) = String.length a + String.length b.
Proof.
  induction a as [|x a IH]; [reflexivity |].
  rewrite str_app_cons. cbn [String.length]. now rewrite IH.
Qed.

Lemma after_gt_split (s r : string) :
  after_gt s = Some r -> exists pre, s = pre +:+ r /\ has_char ">" s = true.
Proof.
  revert r. induction s as [|c s IH]; intros r; cbn [after_gt has_char];
    [discriminate |].
  destruct (Ascii.eqb c ">").
  - intros [= <-]. now exists (String c EmptyString).
  - intros Hr. destruct (IH r Hr) as (pre & -> & Hgt).
    exists (String c pre). now split.
Qed.

Lemma after_gt_None (s : string) :
  after_gt s = None -> has_char ">" s = false.
Proof.
  induction s as [|c s IH]; cbn [after_gt has_char]; [reflexivity |].
  destruct (Ascii.eqb c ">"); [discriminate | exact IH].
Qed.

Lemma tag_end_split (s r : string) :
  tag_end s = Some r ->
  exists c pre,
    s = String c (pre +:+ r) /\ has_tag s = true /\ has_char ">" s = true.
Proof.
  destruct s as [|c [|c1 s'']]; cbn [tag_end]; try discriminate.
  destruct (Ascii.eqb c "<") eqn:Hc; [| discriminate].
  destruct (Ascii.eqb c1 ">") eqn:Hc1; cbn [andb negb]; [discriminate |].
  intros Hr. destruct (after_gt_split s'' r Hr) as (pre & -> & Hgt).
  exists c, (String c1 pre). split; [reflexivity |].
  cbn [has_tag head_not_gt has_char]. rewrite Hc, Hc1, Hgt.
  split; [reflexivity | now rewrite !orb_true_r].
Qed.

Lemma replace_from_skip (icase : bool) (r : regex) (by_ pre : string) :
  forall p s,
    exists p',
      replace_from icase r by_ p (pre +:+ s) (String.length pre)
      = replace_from icase r by_ p' s 0.
Proof.
  induction pre as [|c pre IH]; intros p s.
  - now exists p.
  - rewrite str_app_cons. cbn [String.length replace_from]. apply IH.
Qed.

(** One step of the replacement of tags: a tag at the head is replaced by
    a blank and the replacement goes on behind it; any other character
    is kept. *)
Lemma replace_tag_step (p : option ascii) (s : string) :
  match tag_end s with
  | Some r =>
      exists p', replace_from false re_tag " " p s 0
                 = String " " (replace_from false re_tag " " p' r 0)
  | None =>
      replace_from false re_tag " " p s 0
      = match s with
        | EmptyString => EmptyString
        | String c s' => String c (replace_from false re_tag " " (Some c) s' 0)
        end
  end.
Proof.
  pose proof (exec_at_tag p s) as Hexec.
  destruct (tag_end s) as [r|] eqn:Hend.
  - destruct Hexec as (st & Hexec & Hrest).
    destruct (tag_end_split s r Hend) as (c & pre & -> & _ & _).
    destruct (replace_from_skip false re_tag " " pre (Some c) r) as [p' Hskip].
    exists p'. cbn [replace_from]. rewrite Hexec, Hrest.
    cbn [String.length]. rewrite str_app_length.
    replace (S (String.length pre + String.length r) - String.length r)
      with (S (String.length pre)) by lia.
    now rewrite Hskip.
  - destruct s as [|c s']; cbn [replace_from]; now rewrite Hexec.
Qed.

Lemma replace_tag_keeps_no_gt (n : nat) :
  forall s p,
    String.length s <= n ->
    has_char ">" s = false ->
    has_char ">" (replace_from false re_tag " " p s 0) = false.
Proof.
  induction n as [|n IH]; intros s p Hlen Hno;
    pose proof (replace_tag_step p s) as Hstep;
    destruct (tag_end s) as [r|] eqn:Hend.
  - destruct (tag_end_split s r Hend) as (c & pre & -> & _). cbn in Hlen. lia.
  - destruct s; [now rewrite Hstep | cbn in Hlen; lia].
  - destruct (tag_end_split s r Hend) as (c & pre & _ & _ & Hgt). congruence.
  - rewrite Hstep. destruct s as [|c s']; [reflexivity |].
    cbn [has_char] in *. apply orb_false_iff in Hno as [-> Hno].
    apply IH; [cbn in Hlen; lia | exact Hno].
Qed.

Lemma replace_tag_head_gt (p : option ascii) (c : ascii) (s : string) :
  Ascii.eqb c ">" = true ->
  head_not_gt (replace_from false re_tag " " p (String c s) 0) = false.
Proof.
  intros Hc. pose proof (replace_tag_step p (String c s)) as Hstep.
  assert (tag_end (String c s) = None) as Hend.
  { apply Ascii.eqb_eq in Hc as ->. now destruct s. }
  rewrite Hend in Hstep. rewrite Hstep. cbn. now rewrite Hc.
Qed.

(** No tag is left after the replacement. *)
Lemma replace_tag_no_tag (n : nat) :
  forall s p,
    String.length s <= n ->
    has_tag (replace_from false re_tag " " p s 0) = false.
Proof.
  induction n as [|n IH]; intros s p Hlen;
    pose proof (replace_tag_step p s) as Hstep;
    destruct (tag_end s) as [r|] eqn:Hend.
  - destruct (tag_end_split s r Hend) as (c & pre & -> & _). cbn in Hlen. lia.
  - destruct s; [now rewrite Hstep | cbn in Hlen; lia].
  - destruct Hstep as [p' ->].
    destruct (tag_end_split s r Hend) as (c & pre & -> & _).
    cbn [has_tag Ascii.eqb Bool.eqb andb orb]. apply IH.
    cbn in Hlen. rewrite str_app_length in Hlen. lia.
  - rewrite Hstep. destruct s as [|c s']; [reflexivity |].
    cbn [has_tag]. rewrite (IH s' (Some c)) by (cbn in Hlen; lia).
    rewrite orb_false_r.
    destruct (Ascii.eqb c "<") eqn:Hc; [| reflexivity]. cbn [andb].
    destruct s' as [|c1 s''].
    + reflexivity.
    + cbn [tag_end] in Hend. rewrite Hc in Hend. cbn [andb] in Hend.
      destruct (Ascii.eqb c1 ">") eqn:Hc1; cbn [negb] in Hend.
      * now rewrite replace_tag_head_gt.
      * rewrite (replace_tag_keeps_no_gt n); [apply andb_false_r | |].
        -- cbn in Hlen. cbn. lia.
        -- cbn [has_char]. rewrite Hc1. now apply after_gt_None.
Qed.

Lemma search_tag_none (s : string) :
  has_tag s = false -> forall p, search_from false re_tag p s = None.
Proof.
  induction s as [|c s IH]; intros Hno p; cbn [search_from].
  - reflexivity.
  - pose proof (exec_at_tag p (String c s)) as Hexec.
    destruct (tag_end (String c s)) as [r|] eqn:Hend.
    + destruct (tag_end_split _ r Hend) as (c0 & pre & _ & Htag & _).
      congruence.
    + rewrite Hexec. apply IH. cbn [has_tag] in Hno.
      now apply orb_false_iff in Hno as [_ Hno].
Qed.

Lemma space_plain (c : ascii) :
  is_space c = true -> Ascii.eqb c "<" = false /\ Ascii.eqb c ">" = false.
Proof.
  destruct c as [[] [] [] [] [] [] [] []]; vm_compute; intros H;
    try discriminate; now split.
Qed.

Lemma has_char_gt_collapse (b : bool) (s : string) :
  has_char ">" (collapse b s) = has_char ">" s.
Proof.
  revert b. induction s as [|c s IH]; intros b; [reflexivity |].
  cbn [collapse has_char]. destruct (is_space c) eqn:Hc.
  - destruct (space_plain c Hc) as [_ ->].
    destruct b; cbn [has_char Ascii.eqb Bool.eqb orb andb]; apply IH.
  - cbn [has_char]. now rewrite IH.
Qed.

Lemma head_not_gt_collapse (s : string) :
  head_not_gt (collapse false s) = head_not_gt s.
Proof.
  destruct s as [|c s]; [reflexivity |]. cbn [collapse head_not_gt].
  destruct (is_space c) eqn:Hc; [| reflexivity].
  destruct (space_plain c Hc) as [_ ->]. reflexivity.
Qed.

Lemma has_tag_collapse (b : bool) (s : string) :
  has_tag (collapse b s) = has_tag s.
Proof.
  revert b. induction s as [|c s IH]; intros b; [reflexivity |].
  cbn [collapse has_tag]. destruct (is_space c) eqn:Hc.
  - destruct (space_plain c Hc) as [-> _]. cbn [andb orb].
    destruct b; cbn [has_tag Ascii.eqb Bool.eqb orb andb]; apply IH.
  - cbn [has_tag].
    now rewrite IH, head_not_gt_collapse, has_char_gt_collapse.
Qed.

Lemma has_tag_trim_start (s : string) : has_tag (trim_start s) = has_tag s.
Proof.
  induction s as [|c s IH]; [reflexivity |]. cbn [trim_start].
  destruct (is_space c) eqn:Hc; [| reflexivity].
  cbn [has_tag]. destruct (space_plain c Hc) as [-> _]. exact IH.
Qed.

Lemma trim_end_head (s : string) (c : ascii) (t : string) :
  trim_end s = String c t -> exists s', s = String c s'.
Proof.
  destruct s as [|c0 s']; cbn [trim_end]; [discriminate |].
  destruct (trim_end s'); [destruct (is_space c0) |];
    intros [= <- <-]; eauto.
Qed.

Lemma has_char_gt_trim_end (s : string) :
  has_char ">" (trim_end s) = has_char ">" s.
Proof.
  induction s as [|c s IH]; [reflexivity |]. cbn [trim_end has_char].
  rewrite <- IH. destruct (trim_end s) as [|c' t]; [| reflexivity].
  destruct (is_space c) eqn:Hc; cbn [has_char].
  - destruct (space_plain c Hc) as [_ ->]. reflexivity.
  - reflexivity.
Qed.

Lemma has_tag_trim_end (s : string) : has_tag (trim_end s) = has_tag s.
Proof.
  induction s as [|c s IH]; [reflexivity |]. cbn [trim_end has_tag].
  rewrite <- IH, <- has_char_gt_trim_end.
  destruct (trim_end s) as [|c' t] eqn:Ht.
  - cbn [has_char has_tag]. rewrite andb_false_r.
    destruct (is_space c); cbn; now rewrite ?andb_false_r.
  - cbn [has_tag]. destruct (trim_end_head s c' t Ht) as [s' ->].
    reflexivity.
Qed.

Lemma has_tag_trim (s : string) : has_tag (trim s) = has_tag s.
Proof. unfold trim. now rewrite has_tag_trim_end, has_tag_trim_start. Qed.

Lemma has_char_gt_take (n : nat) (s : string) :
  has_char ">" (str_take n s) = true -> has_char ">" s = true.
Proof.
  revert s. induction n as [|n IH]; intros [|c s]; cbn [str_take has_char];
    try discriminate.
  intros H. apply orb_true_iff in H as [-> | H]; [reflexivity |].
  rewrite (IH s H). apply orb_true_r.
Qed.

Lemma has_tag_take (n : nat) (s : string) :
  has_tag s = false -> has_tag (str_take n s) = false.
Proof.
  revert s. induction n as [|n IH]; intros [|c s]; cbn [str_take has_tag];
    try reflexivity.
  intros H. apply orb_false_iff in H as [Hhead Htail].
  rewrite (IH s Htail), orb_false_r.
  destruct (Ascii.eqb c "<"); [| reflexivity]. cbn [andb] in *.
  destruct (has_char ">" (str_take n s)) eqn:Hgt; [| apply andb_false_r].
  rewrite (has_char_gt_take n s Hgt), andb_true_r in Hhead.
  rewrite andb_true_r.
  destruct n as [|n]; [reflexivity |]. destruct s; [reflexivity | exact Hhead].
Qed.

Lemma cleaned_no_tag (text0 : string) :
  has_tag (trim (replace_all false re_spaces " "
                   (replace_all false re_tag " " text0))) = false.
Proof.
  rewrite has_tag_trim, replace_all_spaces, has_tag_collapse.
  unfold replace_all. now apply (replace_tag_no_tag (String.length text0)).
Qed.

(** X17: no tag is left in what the extractors produce: in the content of
    the heuristic extractor and in the page text of the model-based
    extractor's prompt the tag pattern [/<[^>]+>/] finds nothing. *)
Theorem extracted_text_has_no_tag (html : string) :
  str_match false re_tag (content (extractWithTraditionalMethods html)) = None
  /\ str_match false re_tag (ai_clean html) = None.
Proof.
  split; apply search_tag_none.
  - unfold extractWithTraditionalMethods, heuristic_content. cbn [content].
    apply cleaned_no_tag.
  - unfold ai_clean. apply has_tag_take, cleaned_no_tag.
Qed.

(** ** The submission form *)

Lemma trim_start_pad (pad s : string) :
  all_space pad = true -> trim_start (pad +:+ s) = trim_start s.
Proof.
  induction pad as [|c pad IH]; [reflexivity |].
  cbn [all_space]. intros H. apply andb_true_iff in H as [Hc Hpad].
  rewrite str_app_cons. cbn [trim_start]. rewrite Hc. now apply IH.
Qed.

Lemma trim_end_all_space (pad : string) :
  all_space pad = true -> trim_end pad = EmptyString.
Proof.
  induction pad as [|c pad IH]; [reflexivity |].
  cbn [all_space trim_end]. intros H. apply andb_true_iff in H as [Hc Hpad].
  now rewrite (IH Hpad), Hc.
Qed.

Lemma trim_end_pad (s pad : string) :
  all_space pad = true -> trim_end (s +:+ pad) = trim_end s.
Proof.
  intros Hpad. induction s as [|c s IH].
  - now apply trim_end_all_space.
  - rewrite str_app_cons. cbn [trim_end]. now rewrite IH.
Qed.

Lemma trim_start_all_space (pad : string) :
  all_space pad = true -> trim_start pad = EmptyString.
Proof.
  induction pad as [|c pad IH]; [reflexivity |].
  cbn [all_space trim_start]. intros H. apply andb_true_iff in H as [Hc Hpad].
  rewrite Hc. now apply IH.
Qed.

Lemma trim_start_app (s pad : string) :
  all_space pad = true ->
  trim_end (trim_start (s +:+ pad)) = trim_end (trim_start s).
Proof.
  intros Hpad. induction s as [|c s IH].
  - change (EmptyString +:+ pad) with pad.
    now rewrite (trim_start_all_space pad Hpad).
  - rewrite str_app_cons. cbn [trim_start]. destruct (is_space c); [exact IH |].
    rewrite <- str_app_cons. now apply trim_end_pad.
Qed.

(** White space around a text does not change what [trim] gives. *)
Lemma trim_pad (before s after : string) :
  all_space before = true -> all_space after = true ->
  trim (before +:+ s +:+ after) = trim s.
Proof.
  intros Hb Ha. unfold trim. rewrite trim_start_pad by exact Hb.
  now apply trim_start_app.
Qed.

(** X18: the form submits nothing for a blank field (the store, the field
    and the toasts stay as they are); otherwise the only change it can
    make to the store is one new record in state [processing] whose URL
    is the trimmed text of the field, which is not empty and has no white
    space at either end, and the field is emptied exactly then. *)
Theorem handleSubmit_stores_trimmed (client_error : exn -> exn) (f f' : form)
    (s s' : system) :
  handleSubmit client_error f s = (f', s') ->
  (is_empty (trim (form_url f)) = true -> f' = f /\ s' = s)
  /\ (s' = s /\ (is_empty (trim (form_url f)) = false -> form_url f' = form_url f)
      \/ exists id,
           db s !! id = None
           /\ s' = System (<[id := new_article (trim (form_url f))]> (db s))
                          (scheduled s ++ [AtStart id])
           /\ is_empty (trim (form_url f)) = false
           /\ trimmed (trim (form_url f)) = true
           /\ form_url f' = EmptyString).
Proof.
  unfold handleSubmit. destruct (is_empty (trim (form_url f))) eqn:Hblank.
  - intros [= <- <-]. split; [now split |]. left. split; [reflexivity |].
    discriminate.
  - destruct (create (trim (form_url f)) s) as [[id s1] | e] eqn:Hcreate;
      intros [= <- <-]; (split; [discriminate |]).
    + right. apply create_Ok_inv in Hcreate as (_ & Hnone & ->).
      exists id. repeat split; try assumption. apply trim_trimmed.
    + left. split; [reflexivity | reflexivity].
Qed.

Lemma handleSubmit_stores_trimmed_witness :
  exists id,
    db initial !! id = None
    /\ snd (handleSubmit (fun e => e) (Form "  https://example.com/a " false [])
              initial)
       = System (<[id := new_article "https://example.com/a"]> (db initial))
                (scheduled initial ++ [AtStart id]).
Proof.
  destruct (handleSubmit (fun e => e)
              (Form "  https://example.com/a " false []) initial)
    as [f' s'] eqn:Hsubmit.
  destruct (handleSubmit_stores_trimmed _ _ f' initial s' Hsubmit)
    as [_ [[Hsame _] | (id & Hnone & Hs' & _)]].
  - exfalso. subst s'. vm_compute in Hsubmit. discriminate.
  - exists id. split; [exact Hnone |]. cbn [snd]. exact Hs'.
Defined.

(** X19: a URL that is already taken is recognised whatever white space
    surrounds it in the field: the form then leaves the store as it is,
    keeps the text of the field and shows the error of the rejected
    submission. *)
Theorem handleSubmit_padded_duplicate (client_error : exn -> exn) (f : form)
    (s : system) (before url after : string) :
  form_url f = before +:+ url +:+ after ->
  all_space before = true ->
  all_space after = true ->
  trim url ≠ EmptyString ->
  url_taken (trim url) s ->
  handleSubmit client_error f s
  = (Form (form_url f) false
       (toasts f ++ [ToastError (submit_error_text
                                   (client_error
                                      (JsError "Article already exists")))]),
     s).
Proof.
  intros Hfield Hb Ha Hnonblank (id & a & Hrec & Hurl).
  unfold handleSubmit. rewrite Hfield, (trim_pad before url after Hb Ha).
  destruct (trim url) as [|c t] eqn:Htrim; [congruence |]. cbn [is_empty].
  now rewrite (create_duplicate _ s id a Hrec Hurl).
Qed.

Lemma handleSubmit_padded_duplicate_witness :
  handleSubmit (fun e => e) (Form "  https://example.com/a " true []) one_article
  = (Form "  https://example.com/a " false [ToastError "Article already exists"],
     one_article).
Proof.
  apply (handleSubmit_padded_duplicate (fun e => e)
           (Form "  https://example.com/a " true []) one_article
           "  " "https://example.com/a" " ");
    try reflexivity; [discriminate |].
  exists 0%N, (new_article "https://example.com/a"). split; reflexivity.
Defined.

(** ** A run settles its record *)

(** X20: a run for an article that has a record, each of whose awaited
    calls answers or is rejected, settles the record.  Taken alone, with
    nothing else between its steps, it returns normally and leaves the
    record completed with title, content and audio reference, or in
    state [error] with an error message.  Among submissions, retries and
    other runs in any interleaving, as long as no retry is issued for an
    article one of whose runs is still under way, the record is in one
    of these two conditions right after the last write of every run. *)
Theorem processArticle_settles (w : world) (s : system) :
  (forall articleId a,
     db s !! articleId = Some a ->
     exists s' a',
       processArticle w articleId s = (Ok tt, s')
       /\ db s' !! articleId = Some a'
       /\ settled a')
  /\ (reachable when_idle s ->
      forall r s',
        r ∈ scheduled s ->
        run_step w r s = (Finished, s') ->
        exists a', db s' !! run_article r = Some a' /\ settled a').
Proof.
  split.
  - intros articleId a Ha. unfold settled. unfold_action. rewrite Ha.
    repeat (case_match; simplify_eq; cbn [db scheduled fst snd] in * );
      rewrite ?lookup_insert_eq in *; simplify_eq;
      (eexists _, _; split; [reflexivity |]; cbn [db];
       rewrite lookup_insert_eq; split; [reflexivity |];
       cbn; first [ left; repeat split; eauto; fail
                  | right; split; eauto ]).
  - intros Hreach r s' Hin Hstep.
    destruct (reachable_consistent s Hreach) as [_ Hready].
    rewrite Forall_forall in Hready. specialize (Hready r Hin).
    destruct r as [i | i x | i f | i e]; unfold run_step in Hstep;
      unfold_action; cbn [run_ready run_article] in *.
    + repeat (case_match; simplify_eq).
    + repeat (case_match; simplify_eq).
    + destruct Hready as (a & Ha & Htitle & Hcontent). rewrite Ha in Hstep.
      injection Hstep as <-. cbn [db]. rewrite lookup_insert_eq.
      eexists. split; [reflexivity |]. left. cbn. eauto.
    + destruct (db s !! i) as [a |] eqn:Ha; [| discriminate].
      injection Hstep as <-. cbn [db]. rewrite lookup_insert_eq.
      eexists. split; [reflexivity |]. right. cbn. eauto.
Qed.

Lemma race_3_reachable_idle : reachable when_idle race_3.
Proof.
  assert (step when_idle initial race_1) as H1 by apply step_create.
  assert (step when_idle race_1 race_2) as H2
    by (apply step_advance; reflexivity).
  assert (step when_idle race_2 race_3) as H3
    by (apply step_advance; vm_compute; reflexivity).
  unfold reachable.
  eapply rtc_l; [exact H1 |]. eapply rtc_l; [exact H2 |].
  apply rtc_once. exact H3.
Qed.

Lemma processArticle_settles_witness :
  (exists s' a',
     processArticle world_404 0 one_article = (Ok tt, s')
     /\ db s' !! 0%N = Some a' /\ settled a')
  /\ (exists s' a',
        processArticle quiet_world 0 one_article = (Ok tt, s')
        /\ db s' !! 0%N = Some a' /\ settled a')
  /\ (exists a',
        db (run_step quiet_world (AtComplete 0 7) race_3).2 !! 0%N = Some a'
        /\ settled a').
Proof.
  split; [| split].
  - apply (proj1 (processArticle_settles world_404 one_article) 0%N
             (new_article "https://example.com/a")).
    reflexivity.
  - apply (proj1 (processArticle_settles quiet_world one_article) 0%N
             (new_article "https://example.com/a")).
    reflexivity.
  - apply (proj2 (processArticle_settles quiet_world race_3)
             race_3_reachable_idle (AtComplete 0 7)).
    + vm_compute. constructor.
    + vm_compute. reflexivity.
Defined.
